(** * compute temp/asphere: kinetic temperature of aspherical particles

    A shallow embedding of [src/ASPHERE/compute_temp_asphere.cpp]
    (class [ComputeTempAsphere]) and the properties of its degrees-of-freedom
    bookkeeping, its accumulation passes and its bias protocol.

    Conventions of the embedding.
    - A C++ [double] is an element of an arbitrary real field [F]: the
      arithmetic is exact, rounding, overflow and NaN are outside the model.
      So is a division by zero (a quotient by 0 is 0 in [F]); no statement
      below relies on the value of one.
    - A C++ [int] is an unbounded integer ([int] of MathComp); signed
      overflow is undefined in C++ and is not modelled.
    - The program runs as one process per MPI rank, all executing the same
      method.  The world holds the atom arrays of every rank; a method takes
      the world and the calling rank [me], and [MPI_Allreduce] with [MPI_SUM]
      is the sum over the ranks of the value each rank contributes.
    - Other computes (the bias) are reached through virtual calls; their
      bodies are unknown here and are parameters of the development. *)

From HB Require Import structures.
From Stdlib Require Import NArith String.
From mathcomp Require Import boot order algebra.
From mathcomp Require Import ring lra.

Set Implicit Arguments.
Unset Strict Implicit.
Unset Printing Implicit Defensive.

Import GRing.Theory Num.Theory Order.Theory.
Local Open Scope ring_scope.

(** ** Results of fallible methods

    [error->all] and [error->one] print a message and stop the run. *)

Inductive outcome (A : Type) : Type :=
| Ok (a : A)
| Fatal (msg : string).

Arguments Ok {A} a.
Arguments Fatal {A} msg.

Definition is_fatal (A : Type) (r : outcome A) : bool :=
  if r is Fatal _ then true else false.

Definition bind (A B : Type) (r : outcome A) (k : A -> outcome B) : outcome B :=
  match r with
  | Ok a => k a
  | Fatal msg => Fatal msg
  end.

(** ** Data *)

Section Data.

Variable F : Type.

(** [double x[3]] *)
Record vec3 : Type := Vec3 { c0 : F; c1 : F; c2 : F }.

(** [double quat[4]] *)
Record quat4 : Type := Quat4 { q0 : F; q1 : F; q2 : F; q3 : F }.

(** [double rot[3][3]], by rows *)
Record mat3 : Type := Mat3 { r0 : vec3; r1 : vec3; r2 : vec3 }.

(** [double t[6]], [double vector[6]]: components xx, yy, zz, xy, xz, yz *)
Record vec6 : Type :=
  Vec6 { t0 : F; t1 : F; t2 : F; t3 : F; t4 : F; t5 : F }.

(** [AtomVecEllipsoid::Bonus]: the fields this compute reads *)
Record Bonus : Type := MkBonus { shape : vec3; quat : quat4 }.

(** The per-rank atom arrays ([atom->v], [atom->angmom], [atom->rmass],
    [atom->mask], [atom->ellipsoid], [avec->bonus]) and [atom->nlocal]. *)
Record proc : Type := Proc {
  nlocal : nat;
  v : seq vec3;
  angmom : seq vec3;
  rmass : seq F;
  mask : seq N;
  ellipsoid : seq int;
  bonus : seq Bonus
}.

(** What this file reads of another [Compute] object in [modify->compute]. *)
Record compute_obj : Type := ComputeObj {
  c_id : string;
  c_style : string;
  c_tempflag : int;
  c_tempbias : int;
  c_igroup : int;
  c_invoked_scalar : int;
  c_invoked_vector : int
}.

(** Everything outside the class: the atoms of every rank, [modify],
    [domain], [force], [update], and the rest of the simulation ([ext], of
    an arbitrary type [P]: private members of other computes, positions,
    regions). A fix is represented by its [dof(igroup)] method. *)
Record world (P : Type) : Type := World {
  procs : seq proc;
  computes : seq compute_obj;
  fixes : seq (int -> int);
  dimension : int;
  mvv2e : F;
  boltz : F;
  ntimestep : int;
  ext : P
}.

(** The virtual methods of [Compute] that this file calls on the bias
    compute [modify->compute[h]]. Their bodies belong to other classes. A
    method called on every rank ([init], [compute_scalar], [compute_vector],
    [remove_bias_all], [restore_bias_all]) takes the world to the world
    after all ranks have returned from it; [dof_remove] and the single-atom
    [remove_bias] and [restore_bias] also take the calling rank. The [init]
    of the bias can stop the run as the one of this class does: it returns
    the world it leaves or the message of its error. *)
Record compute_class (P : Type) : Type := ComputeClass {
  bias_init : nat -> world P -> outcome (world P);
  bias_compute_scalar : nat -> world P -> world P;
  bias_compute_vector : nat -> world P -> world P;
  bias_remove_bias_all : nat -> world P -> world P;
  bias_restore_bias_all : nat -> world P -> world P;
  bias_dof_remove : nat -> world P -> nat -> int -> int;
  bias_remove_bias : nat -> world P -> nat -> int -> vec3 -> vec3 * world P;
  bias_restore_bias : nat -> world P -> nat -> int -> vec3 -> vec3 * world P
}.

(** The members of [ComputeTempAsphere] (its own and those of [Compute]).
    [tbias] is a pointer into [modify->compute]: [None] is the null pointer,
    [Some h] points to entry [h]. *)
Record state : Type := State {
  igroup : int;
  groupbit : N;
  dynamic : int;
  extra_dof : int;
  tempbias : int;
  id_bias : string;
  tbias : option nat;
  fix_dof : int;
  dof : F;
  tfactor : F;
  scalar : F;
  vector : vec6;
  invoked_scalar : int;
  invoked_vector : int
}.

End Data.

Arguments World {F P}.
Arguments ComputeClass {F P}.
Arguments State {F}.

(** ** The embedding *)

Section Model.

Variable F : realFieldType.
Variable P : Type.

Local Notation vec3 := (vec3 F).
Local Notation vec6 := (vec6 F).
Local Notation proc := (proc F).
Local Notation world := (world F P).
Local Notation state := (state F).

Definition vec3_0 : vec3 := Vec3 0 0 0.
Definition vec6_0 : vec6 := Vec6 0 0 0 0 0 0.
Definition bonus_0 : Bonus F := MkBonus vec3_0 (Quat4 0 0 0 0).
Definition proc_0 : proc := Proc 0 [::] [::] [::] [::] [::] [::].
Definition compute_0 : compute_obj :=
  ComputeObj EmptyString EmptyString 0 0 0 0 0.

(** Array reads. An index outside the array is undefined in C++; the model
    reads a zero element there. *)
Definition v_at (p : proc) (i : nat) : vec3 := nth vec3_0 (v p) i.
Definition angmom_at (p : proc) (i : nat) : vec3 := nth vec3_0 (angmom p) i.
Definition rmass_at (p : proc) (i : nat) : F := nth 0 (rmass p) i.
Definition mask_at (p : proc) (i : nat) : N := nth N0 (mask p) i.
Definition ellipsoid_at (p : proc) (i : nat) : int := nth 0 (ellipsoid p) i.

(** [bonus[ellipsoid[i]]] *)
Definition bonus_at (p : proc) (i : nat) : Bonus F :=
  if ellipsoid_at p i is Posz k then nth bonus_0 (bonus p) k else bonus_0.

(** [mask[i] & groupbit], as the condition of an [if] *)
Definition in_group (gb : N) (p : proc) (i : nat) : bool :=
  negb (N.eqb (N.land (mask_at p i) gb) N0).

(** [modify->compute[h]] and the rank's atom arrays *)
Definition compute_at (w : world) (h : nat) : compute_obj :=
  nth compute_0 (computes w) h.
Definition rank (w : world) (r : nat) : proc := nth proc_0 (procs w) r.
Definition nprocs (w : world) : nat := size (procs w).

(** [tbias->...]: the entry the pointer refers to. Dereferencing the null
    pointer is undefined in C++; the model reads entry 0 ([init] resolves
    the pointer whenever [tempbias] is set, see [init_resolves_tbias]). *)
Definition deref (ptr : option nat) : nat := odflt 0%N ptr.

(** Assignments to members *)
Definition set_dof (s : state) (d tf : F) : state :=
  State (igroup s) (groupbit s) (dynamic s) (extra_dof s) (tempbias s)
        (id_bias s) (tbias s) (fix_dof s) d tf (scalar s) (vector s)
        (invoked_scalar s) (invoked_vector s).

Definition set_scalar (s : state) (x : F) : state :=
  State (igroup s) (groupbit s) (dynamic s) (extra_dof s) (tempbias s)
        (id_bias s) (tbias s) (fix_dof s) (dof s) (tfactor s) x (vector s)
        (invoked_scalar s) (invoked_vector s).

Definition set_vector (s : state) (x : vec6) : state :=
  State (igroup s) (groupbit s) (dynamic s) (extra_dof s) (tempbias s)
        (id_bias s) (tbias s) (fix_dof s) (dof s) (tfactor s) (scalar s) x
        (invoked_scalar s) (invoked_vector s).

Definition set_invoked_scalar (s : state) (n : int) : state :=
  State (igroup s) (groupbit s) (dynamic s) (extra_dof s) (tempbias s)
        (id_bias s) (tbias s) (fix_dof s) (dof s) (tfactor s) (scalar s)
        (vector s) n (invoked_vector s).

Definition set_invoked_vector (s : state) (n : int) : state :=
  State (igroup s) (groupbit s) (dynamic s) (extra_dof s) (tempbias s)
        (id_bias s) (tbias s) (fix_dof s) (dof s) (tfactor s) (scalar s)
        (vector s) (invoked_scalar s) n.

Definition set_tbias (s : state) (tb : int) (ptr : option nat) : state :=
  State (igroup s) (groupbit s) (dynamic s) (extra_dof s) tb
        (id_bias s) ptr (fix_dof s) (dof s) (tfactor s) (scalar s)
        (vector s) (invoked_scalar s) (invoked_vector s).

Definition set_fix_dof (s : state) (n : int) : state :=
  State (igroup s) (groupbit s) (dynamic s) (extra_dof s) (tempbias s)
        (id_bias s) (tbias s) n (dof s) (tfactor s) (scalar s)
        (vector s) (invoked_scalar s) (invoked_vector s).

(** *** Collaborators that are not part of this file *)

(** Modelled from the spec: [MathExtra::quat_to_mat] (math_extra.h is not
    among the sources) gives "the rotation matrix equivalent to q", for a
    quaternion stored scalar part first. *)
Definition quat_to_mat (q : quat4 F) : mat3 F :=
  let w2 := q0 q * q0 q in
  let i2 := q1 q * q1 q in
  let j2 := q2 q * q2 q in
  let k2 := q3 q * q3 q in
  let twoij := 2%:R * q1 q * q2 q in
  let twoik := 2%:R * q1 q * q3 q in
  let twojk := 2%:R * q2 q * q3 q in
  let twoiw := 2%:R * q1 q * q0 q in
  let twojw := 2%:R * q2 q * q0 q in
  let twokw := 2%:R * q3 q * q0 q in
  Mat3 (Vec3 (w2 + i2 - j2 - k2) (twoij - twokw) (twojw + twoik))
       (Vec3 (twoij + twokw) (w2 - i2 + j2 - k2) (twojk - twoiw))
       (Vec3 (twoik - twojw) (twojk + twoiw) (w2 - i2 - j2 + k2)).

(** Modelled from the spec: [MathExtra::transpose_matvec] (math_extra.h is
    not among the sources) is the "matrix-vector transpose multiply", the
    product of the transpose of [m] with the column [x]. *)
Definition transpose_matvec (m : mat3 F) (x : vec3) : vec3 :=
  Vec3 (c0 (r0 m) * c0 x + c0 (r1 m) * c1 x + c0 (r2 m) * c2 x)
       (c1 (r0 m) * c0 x + c1 (r1 m) * c1 x + c1 (r2 m) * c2 x)
       (c2 (r0 m) * c0 x + c2 (r1 m) * c1 x + c2 (r2 m) * c2 x).

(** Modelled from the spec: [MPI_Allreduce] with [MPI_SUM] (the MPI library
    is not among the sources) is the "element-wise sum" over all workers of
    the value each worker contributes; every worker receives the result. *)
Definition allreduce_sum (V : nmodType) (n : nat) (contrib : nat -> V) : V :=
  foldr (fun r x => contrib r + x) 0 (iota 0 n).

(** Modelled from the spec: [Modify::find_compute] (modify.cpp is not among
    the sources) resolves a compute by its ID: the index of the entry of
    [modify->compute] with that ID, or -1 when there is none. *)
Definition find_compute (w : world) (id : string) : int :=
  let k := find (fun c => String.eqb id (c_id c)) (computes w) in
  if (k < size (computes w))%N then Posz k else -1.

(** [group->count(igroup)]: the number of atoms of the group over all
    ranks. The [Group] class is not among the sources; its answer is a
    parameter. *)
Variable group_count : world -> int -> nat.

(** The class of the bias compute: its virtual methods are parameters. *)
Variable cls : compute_class F P.

(** *** [ComputeTempAsphere::dof_compute] *)

(** The loop of lines 132-134 on rank [r]: [count] after the last atom. *)
Definition dof_count (w : world) (s : state) (r : nat) : int :=
  foldl (fun count i =>
           if in_group (groupbit s) (rank w r) i then
             if bias_dof_remove cls (deref (tbias s)) w r (Posz i) != 0
             then count + 1 else count
           else count)
        0 (iota 0 (nlocal (rank w r))).

Definition dof_compute (w : world) (me : nat) (s : state) : state :=
  let natoms : F := (group_count w (igroup s))%:R in
  let nper : int := if dimension w == 2 then 3 else 6 in
  let dof : F := nper%:~R * natoms in
  let dof : F :=
    if tempbias s == 1 then
      dof - (bias_dof_remove cls (deref (tbias s)) w me (-1))%:~R * natoms
    else if tempbias s == 2 then
      let count_all : int := allreduce_sum (nprocs w) (dof_count w s) in
      dof - (nper * count_all)%:~R
    else dof in
  let dof : F := dof - (extra_dof s + fix_dof s)%:~R in
  if 0 < dof then set_dof s dof (mvv2e w / (dof * boltz w))
  else set_dof s dof 0.

(** *** [ComputeTempAsphere::init] *)

(** The loop of lines 86-89 on one rank: does it reach [error->one]? *)
Definition point_particle (gb : N) (p : proc) : bool :=
  foldl (fun err i =>
           if err then true
           else if in_group gb p i then (ellipsoid_at p i < 0) else false)
        false (iota 0 (nlocal p)).

(** Lines 91-104: the bias compute is looked up and checked. *)
Definition init_bias (w : world) (s : state) : outcome (state * world) :=
  if tempbias s != 0 then
    let i := find_compute w (id_bias s) in
    if i < 0 then
      Fatal "Could not find compute ID for temperature bias"
    else
      let h := `|i|%N in
      if c_tempflag (compute_at w h) == 0 then
        Fatal "Bias compute does not calculate temperature"
      else if c_tempbias (compute_at w h) == 0 then
        Fatal "Bias compute does not calculate a velocity bias"
      else if c_igroup (compute_at w h) != igroup s then
        Fatal "Bias compute group does not match compute group"
      else
        bind (bias_init cls h w) (fun w =>
          if String.eqb (c_style (compute_at w h)) "temp/region"
          then Ok (set_tbias s 2 (Some h), w)
          else Ok (set_tbias s 1 (Some h), w))
  else Ok (s, w).

(** Lines 106-108: the fixes are asked for their degrees of freedom. *)
Definition sum_fix_dof (w : world) (g : int) : int :=
  foldl (fun fix_dof f => fix_dof + f g) 0 (fixes w).

Definition init (w : world) (me : nat) (s : state) : outcome (state * world) :=
  if has (point_particle (groupbit s)) (procs w) then
    Fatal "Compute temp/asphere requires extended particles"
  else
    bind (init_bias w s) (fun sw =>
      let s := set_fix_dof sw.1 (sum_fix_dof sw.2 (igroup sw.1)) in
      Ok (dof_compute sw.2 me s, sw.2)).

(** *** [ComputeTempAsphere::compute_scalar] *)

(** Lines 151-154 *)
Definition scalar_remove_bias (w : world) (s : state) : world :=
  if tempbias s != 0 then
    let h := deref (tbias s) in
    let w := if c_invoked_scalar (compute_at w h) != ntimestep w
             then bias_compute_scalar cls h w else w in
    bias_remove_bias_all cls h w
  else w.

(** Lines 175-195: the body of the loop for atom [i], on the sum [t]. *)
Definition scalar_body (p : proc) (i : nat) (t : F) : F :=
  let shape := shape (bonus_at p i) in
  let quat := quat (bonus_at p i) in
  let t := t + (c0 (v_at p i) * c0 (v_at p i) + c1 (v_at p i) * c1 (v_at p i)
                + c2 (v_at p i) * c2 (v_at p i)) * rmass_at p i in
  let inertia :=
    Vec3 (rmass_at p i * (c1 shape * c1 shape + c2 shape * c2 shape) / 5%:R)
         (rmass_at p i * (c0 shape * c0 shape + c2 shape * c2 shape) / 5%:R)
         (rmass_at p i * (c0 shape * c0 shape + c1 shape * c1 shape) / 5%:R) in
  let rot := quat_to_mat quat in
  let wbody := transpose_matvec rot (angmom_at p i) in
  let wbody := Vec3 (c0 wbody / c0 inertia) (c1 wbody) (c2 wbody) in
  let wbody := Vec3 (c0 wbody) (c1 wbody / c1 inertia) (c2 wbody) in
  let wbody := Vec3 (c0 wbody) (c1 wbody) (c2 wbody / c2 inertia) in
  t + (c0 inertia * c0 wbody * c0 wbody + c1 inertia * c1 wbody * c1 wbody
       + c2 inertia * c2 wbody * c2 wbody).

(** Lines 167-196: the value of [t] on one rank after the loop. *)
Definition scalar_loop (gb : N) (p : proc) : F :=
  foldl (fun t i => if in_group gb p i then scalar_body p i t else t)
        0 (iota 0 (nlocal p)).

(** Line 198, and line 273 of [compute_vector] *)
Definition restore_after_pass (w : world) (s : state) : world :=
  if tempbias s != 0 then bias_restore_bias_all cls (deref (tbias s)) w else w.

(** Line 200: [scalar] right after the reduction, the loops having run on
    the atoms of [w]. *)
Definition scalar_reduce (w : world) (s : state) : F :=
  allreduce_sum (nprocs w) (fun r => scalar_loop (groupbit s) (rank w r)).

Definition compute_scalar (w : world) (me : nat) (s : state) : state * world :=
  let s := set_invoked_scalar s (ntimestep w) in
  let w := scalar_remove_bias w s in
  let scalar := scalar_reduce w s in
  let w := restore_after_pass w s in
  let s := if (dynamic s != 0) || (tempbias s == 2)
           then dof_compute w me s else s in
  (set_scalar s (scalar * tfactor s), w).

(** *** [ComputeTempAsphere::compute_vector] *)

(** Lines 214-217 *)
Definition vector_remove_bias (w : world) (s : state) : world :=
  if tempbias s != 0 then
    let h := deref (tbias s) in
    let w := if c_invoked_vector (compute_at w h) != ntimestep w
             then bias_compute_vector cls h w else w in
    bias_remove_bias_all cls h w
  else w.

(** Lines 236-270: the body of the loop for atom [i], on the array [t]. *)
Definition vector_body (p : proc) (i : nat) (t : vec6) : vec6 :=
  let shape := shape (bonus_at p i) in
  let quat := quat (bonus_at p i) in
  let massone := rmass_at p i in
  let t := Vec6 (t0 t + massone * c0 (v_at p i) * c0 (v_at p i))
                (t1 t + massone * c1 (v_at p i) * c1 (v_at p i))
                (t2 t + massone * c2 (v_at p i) * c2 (v_at p i))
                (t3 t + massone * c0 (v_at p i) * c1 (v_at p i))
                (t4 t + massone * c0 (v_at p i) * c2 (v_at p i))
                (t5 t + massone * c1 (v_at p i) * c2 (v_at p i)) in
  let inertia :=
    Vec3 (rmass_at p i * (c1 shape * c1 shape + c2 shape * c2 shape) / 5%:R)
         (rmass_at p i * (c0 shape * c0 shape + c2 shape * c2 shape) / 5%:R)
         (rmass_at p i * (c0 shape * c0 shape + c1 shape * c1 shape) / 5%:R) in
  let rot := quat_to_mat quat in
  let wbody := transpose_matvec rot (angmom_at p i) in
  let wbody := Vec3 (c0 wbody / c0 inertia) (c1 wbody) (c2 wbody) in
  let wbody := Vec3 (c0 wbody) (c1 wbody / c1 inertia) (c2 wbody) in
  let wbody := Vec3 (c0 wbody) (c1 wbody) (c2 wbody / c2 inertia) in
  Vec6 (t0 t + c0 inertia * c0 wbody * c0 wbody)
       (t1 t + c1 inertia * c1 wbody * c1 wbody)
       (t2 t + c2 inertia * c2 wbody * c2 wbody)
       (t3 t + c0 inertia * c0 wbody * c1 wbody)
       (t4 t + c1 inertia * c0 wbody * c2 wbody)
       (t5 t + c2 inertia * c1 wbody * c2 wbody).

(** Lines 231-271: the array [t] on one rank after the loop. *)
Definition vector_loop (gb : N) (p : proc) : vec6 :=
  foldl (fun t i => if in_group gb p i then vector_body p i t else t)
        vec6_0 (iota 0 (nlocal p)).

(** Line 275: [vector] right after the reduction of the six entries. *)
Definition vector_reduce (w : world) (s : state) : vec6 :=
  Vec6 (allreduce_sum (nprocs w) (fun r => t0 (vector_loop (groupbit s) (rank w r))))
       (allreduce_sum (nprocs w) (fun r => t1 (vector_loop (groupbit s) (rank w r))))
       (allreduce_sum (nprocs w) (fun r => t2 (vector_loop (groupbit s) (rank w r))))
       (allreduce_sum (nprocs w) (fun r => t3 (vector_loop (groupbit s) (rank w r))))
       (allreduce_sum (nprocs w) (fun r => t4 (vector_loop (groupbit s) (rank w r))))
       (allreduce_sum (nprocs w) (fun r => t5 (vector_loop (groupbit s) (rank w r)))).

(** Line 276: [for (i = 0; i < 6; i++) vector[i] *= force->mvv2e] *)
Definition scale6 (x : vec6) (k : F) : vec6 :=
  Vec6 (t0 x * k) (t1 x * k) (t2 x * k) (t3 x * k) (t4 x * k) (t5 x * k).

Definition compute_vector (w : world) (s : state) : state * world :=
  let s := set_invoked_vector s (ntimestep w) in
  let w := vector_remove_bias w s in
  let vector := vector_reduce w s in
  let w := restore_after_pass w s in
  (set_vector s (scale6 vector (mvv2e w)), w).

(** *** [ComputeTempAsphere::remove_bias] and [restore_bias]

    [x] is the array the argument [double *v] points to; the methods return
    it with the state and the world they leave. *)



(** ** The quantities the specification names *)

(** Principal moments of a uniform ellipsoid of mass [m] and semi-axes
    [a], [b], [c]. *)
Definition moment_x (m a b c : F) : F := m * (b ^+ 2 + c ^+ 2) / 5%:R.
Definition moment_y (m a b c : F) : F := m * (a ^+ 2 + c ^+ 2) / 5%:R.
Definition moment_z (m a b c : F) : F := m * (a ^+ 2 + b ^+ 2) / 5%:R.

(** The moments (Ix, Iy, Iz) of atom [i] of a rank. *)
Definition inertia (p : proc) (i : nat) : vec3 :=
  let abc := shape (bonus_at p i) in
  Vec3 (moment_x (rmass_at p i) (c0 abc) (c1 abc) (c2 abc))
       (moment_y (rmass_at p i) (c0 abc) (c1 abc) (c2 abc))
       (moment_z (rmass_at p i) (c0 abc) (c1 abc) (c2 abc)).

(** The angular velocity in the body frame: R^T(q) L divided componentwise
    by the moments. *)
Definition omega_body (p : proc) (i : nat) : vec3 :=
  let l := transpose_matvec (quat_to_mat (quat (bonus_at p i))) (angmom_at p i) in
  Vec3 (c0 l / c0 (inertia p i)) (c1 l / c1 (inertia p i))
       (c2 l / c2 (inertia p i)).

Definition ke_trans (p : proc) (i : nat) : F :=
  rmass_at p i * (c0 (v_at p i) ^+ 2 + c1 (v_at p i) ^+ 2 + c2 (v_at p i) ^+ 2).

Definition ke_rot (p : proc) (i : nat) : F :=
  c0 (inertia p i) * c0 (omega_body p i) ^+ 2
  + c1 (inertia p i) * c1 (omega_body p i) ^+ 2
  + c2 (inertia p i) * c2 (omega_body p i) ^+ 2.

(** The sum of [f] over the atoms of the group, on all ranks. *)
Definition group_sum (V : nmodType) (w : world) (gb : N)
    (f : proc -> nat -> V) : V :=
  \sum_(0 <= r < nprocs w)
    \sum_(0 <= i < nlocal (rank w r) | in_group gb (rank w r) i) f (rank w r) i.

(** The number of degrees of freedom per atom. *)
Definition nper (w : world) : int := if dimension w == 2 then 3 else 6.

(** The cross terms of the rotational part, as [compute_vector] pairs them:
    the moment of the slot's axis with the two angular velocities of the
    component. *)
Definition rot_xy (p : proc) (i : nat) : F :=
  c0 (inertia p i) * c0 (omega_body p i) * c1 (omega_body p i).
Definition rot_xz (p : proc) (i : nat) : F :=
  c1 (inertia p i) * c0 (omega_body p i) * c2 (omega_body p i).
Definition rot_yz (p : proc) (i : nat) : F :=
  c2 (inertia p i) * c1 (omega_body p i) * c2 (omega_body p i).

(** The cross terms as the specification lists them for xz and yz. *)
Definition spec_rot_xz (p : proc) (i : nat) : F :=
  c1 (inertia p i) * c1 (omega_body p i) * c2 (omega_body p i).
Definition spec_rot_yz (p : proc) (i : nat) : F :=
  c2 (inertia p i) * c2 (omega_body p i) * c0 (omega_body p i).

(** The translational cross terms. *)
Definition trans_xy (p : proc) (i : nat) : F :=
  rmass_at p i * c0 (v_at p i) * c1 (v_at p i).
Definition trans_xz (p : proc) (i : nat) : F :=
  rmass_at p i * c0 (v_at p i) * c2 (v_at p i).
Definition trans_yz (p : proc) (i : nat) : F :=
  rmass_at p i * c1 (v_at p i) * c2 (v_at p i).

(** The number of atoms of the group, over all ranks, for which the bias
    answers [dof_remove(i)] with a nonzero value. *)
Definition dof_removed (w : world) (s : state) : nat :=
  \sum_(0 <= r < nprocs w)
    count (fun i => in_group (groupbit s) (rank w r) i
                    && (bias_dof_remove cls (deref (tbias s)) w r (Posz i) != 0))
          (iota 0 (nlocal (rank w r))).

(** Some rank owns an atom of the group without an ellipsoid record. *)
Definition has_point_particle (w : world) (gb : N) : bool :=
  has (fun p => has (fun i => in_group gb p i && (ellipsoid_at p i < 0))
                    (iota 0 (nlocal p)))
      (procs w).

(** The entry [find_compute] resolves [id_bias] to, and what [init] refuses
    in it. *)
Definition the_bias (w : world) (s : state) : compute_obj :=
  compute_at w `|find_compute w (id_bias s)|%N.

Definition bias_unresolved (w : world) (s : state) : bool :=
  find_compute w (id_bias s) < 0.

Definition bias_group_mismatch (w : world) (s : state) : bool :=
  c_igroup (the_bias w s) != igroup s.

(** "Neither computes a temperature nor a velocity bias" *)
Definition bias_neither (w : world) (s : state) : bool :=
  (c_tempflag (the_bias w s) == 0) && (c_tempbias (the_bias w s) == 0).

(** One of the two flags is missing. *)
Definition bias_lacks_flag (w : world) (s : state) : bool :=
  (c_tempflag (the_bias w s) == 0) || (c_tempbias (the_bias w s) == 0).

(** The [init] of the resolved bias (line 101) stops the run. *)
Definition bias_init_fails (w : world) (s : state) : bool :=
  is_fatal (bias_init cls `|find_compute w (id_bias s)|%N w).

(** The world in which [init] reads the fixes and computes the degrees of
    freedom: the one [tbias->init()] returns when a bias was resolved. *)
Definition init_world (w : world) (s : state) : world :=
  if tempbias s != 0 then
    if bias_init cls `|find_compute w (id_bias s)|%N w is Ok w1 then w1 else w
  else w.

(** The members as [init] leaves them before its call of [dof_compute]:
    the bias pointer and kind resolved, the fixes summed. *)
Definition init_state (w : world) (s : state) : state :=
  let h := `|find_compute w (id_bias s)|%N in
  let w1 := init_world w s in
  let s1 := if tempbias s != 0 then
              if String.eqb (c_style (compute_at w1 h)) "temp/region"
              then set_tbias s 2 (Some h) else set_tbias s 1 (Some h)
            else s in
  set_fix_dof s1 (sum_fix_dof w1 (igroup s)).

(** The degrees of freedom before [extra_dof] and the fixes are taken off:
    nper times the atoms of the group, less what the bias removes. *)
Definition dof_unconstrained (w : world) (me : nat) (s : state) : F :=
  (nper w)%:~R * (group_count w (igroup s))%:R
  - (if tempbias s == 1 then
       (bias_dof_remove cls (deref (tbias s)) w me (-1))%:~R
       * (group_count w (igroup s))%:R
     else if tempbias s == 2 then (nper w)%:~R * (dof_removed w s)%:R
     else 0).

(** The velocities of all atoms, rank by rank. *)
Definition velocities (w : world) : seq (seq vec3) := [seq v p | p <- procs w].

(** The states an initialised compute goes through: any number of calls of
    the evaluation methods, each in an arbitrary world. *)
Inductive evolves (s0 : state) : state -> Prop :=
| evolves_refl : evolves s0 s0
| evolves_scalar w me s :
    evolves s0 s -> evolves s0 (compute_scalar w me s).1
| evolves_vector w s :
    evolves s0 s -> evolves s0 (compute_vector w s).1
| evolves_dof w me s :
    evolves s0 s -> evolves s0 (dof_compute w me s).

(** ** Worlds and ranks rearranged

    The operations below are not in the source: they build the worlds on
    which the behaviour of the methods is compared. *)

(** The world with other atom arrays, and the world with other fixes. *)
Definition with_procs (w : world) (ps : seq proc) : world :=
  World ps (computes w) (fixes w) (dimension w) (mvv2e w) (boltz w)
        (ntimestep w) (ext w).

Definition with_fixes (w : world) (fs : seq (int -> int)) : world :=
  World (procs w) (computes w) fs (dimension w) (mvv2e w) (boltz w)
        (ntimestep w) (ext w).

(** A rank cut in two at atom [k]: its first [k] atoms, and its atoms from
    [k] on, as ranks of their own. Both keep the bonus array, so the indices
    in [ellipsoid] stay valid. *)
Definition split_lo (k : nat) (p : proc) : proc :=
  Proc k (v p) (angmom p) (rmass p) (mask p) (ellipsoid p) (bonus p).

Definition split_hi (k : nat) (p : proc) : proc :=
  Proc (nlocal p - k) (drop k (v p)) (drop k (angmom p)) (drop k (rmass p))
       (drop k (mask p)) (drop k (ellipsoid p)) (bonus p).

(** A rank with all velocities and angular momenta multiplied by [k]. *)
Definition scale_vec3 (k : F) (x : vec3) : vec3 :=
  Vec3 (k * c0 x) (k * c1 x) (k * c2 x).

Definition scale_proc (k : F) (p : proc) : proc :=
  Proc (nlocal p) [seq scale_vec3 k x | x <- v p]
       [seq scale_vec3 k x | x <- angmom p]
       (rmass p) (mask p) (ellipsoid p) (bonus p).

(** The angular momentum of atom [i] in its body frame. *)
Definition angmom_body (p : proc) (i : nat) : vec3 :=
  transpose_matvec (quat_to_mat (quat (bonus_at p i))) (angmom_at p i).

(** The three moments of atom [i] are nonzero: lines 190-192 and 259-261
    divide by them. *)
Definition nonzero_moments (p : proc) (i : nat) : bool :=
  [&& c0 (inertia p i) != 0, c1 (inertia p i) != 0 & c2 (inertia p i) != 0].

(** Two ranks hold the same atoms of the group: same [nlocal], same masks,
    and the same velocity, angular momentum, mass and bonus record for every
    local atom of the group. *)
Definition same_group_atoms (gb : N) (p q : proc) : Prop :=
  nlocal p = nlocal q
  /\ forall i, (i < nlocal p)%N ->
       in_group gb p i = in_group gb q i
       /\ (in_group gb p i ->
           [/\ v_at p i = v_at q i, angmom_at p i = angmom_at q i,
               rmass_at p i = rmass_at q i & bonus_at p i = bonus_at q i]).

(** What atom [i] of a rank adds to the sum of [compute_scalar] and to the
    six entries of [compute_vector]. *)
Definition scalar_term (p : proc) (i : nat) : F := ke_trans p i + ke_rot p i.

Definition vector_term (p : proc) (i : nat) : vec6 :=
  Vec6 (rmass_at p i * c0 (v_at p i) ^+ 2
        + c0 (inertia p i) * c0 (omega_body p i) ^+ 2)
       (rmass_at p i * c1 (v_at p i) ^+ 2
        + c1 (inertia p i) * c1 (omega_body p i) ^+ 2)
       (rmass_at p i * c2 (v_at p i) ^+ 2
        + c2 (inertia p i) * c2 (omega_body p i) ^+ 2)
       (trans_xy p i + rot_xy p i)
       (trans_xz p i + rot_xz p i)
       (trans_yz p i + rot_yz p i).

(** The sum of [f] over the local atoms of the group on one rank. *)
Definition rank_sum (gb : N) (f : proc -> nat -> F) (p : proc) : F :=
  \sum_(0 <= i < nlocal p | in_group gb p i) f p i.

(** *** [ComputeTempAsphere::ComputeTempAsphere] *)

(** The members of [Compute] the constructor assigns besides those held in
    [state]. *)
Record compute_flags : Type := ComputeFlags {
  scalar_flag : int;
  vector_flag : int;
  size_vector : int;
  extscalar : int;
  extvector : int;
  tempflag : int
}.

Definition set_id_bias (s : state) (tb : int) (id : string) : state :=
  State (igroup s) (groupbit s) (dynamic s) (extra_dof s) tb
        id (tbias s) (fix_dof s) (dof s) (tfactor s) (scalar s)
        (vector s) (invoked_scalar s) (invoked_vector s).

(** Lines 37-65. [base] holds the members as the constructor of [Compute]
    and the allocation leave them (that constructor is not among the
    sources); [arg] is the argument list and [narg] its length; [avec] tells
    whether [atom->style_match("ellipsoid")] finds the atom style. The null
    [id_bias] is the empty string, and the content of the new array
    [vector] is what [base] holds. *)
Definition construct (base : state) (arg : seq string) (avec : bool)
  : outcome (compute_flags * state) :=
  if (size arg != 3%N) && (size arg != 4%N) then
    Fatal "Illegal compute temp/asphere command"
  else
    let flags := ComputeFlags 1 1 6 0 1 1 in
    let s := set_id_bias base 0 EmptyString in
    let s := if size arg == 4%N
             then set_id_bias s 1 (nth EmptyString arg 3) else s in
    if avec then Ok (flags, s)
    else Fatal "Compute temp/asphere requires atom style ellipsoid".

(** The entry of [modify->compute] that stands for a compute of this class
    with ID [id] and style name [style]: the members other computes read. *)
Definition registered (id style : string) (fl : compute_flags) (s : state)
  : compute_obj :=
  ComputeObj id style (tempflag fl) (tempbias s) (igroup s)
             (invoked_scalar s) (invoked_vector s).

End Model.

Arguments evolves_refl {F P group_count cls s0}.
Arguments vec3_0 {F}.
Arguments vec6_0 {F}.
Arguments bonus_0 {F}.
Arguments proc_0 {F}.

(** ** Concrete configurations over the rationals

    Small worlds on which the methods are run: they instantiate the
    parameters and serve as inputs of the examples below. *)

(** [group->count]: the atoms whose mask has the bit of the group. *)
Definition ex_count (w : world rat unit) (g : int) : nat :=
  sumn [seq count (fun m => negb (N.eqb (N.land m (N.shiftl N.one (N.of_nat `|g|))) N0))
                  (take (nlocal p) (mask p))
       | p <- procs w].

(** The world with [d] added to the x velocity of every atom of every
    rank. *)
Definition ex_shift (d : rat) (w : world rat unit) : world rat unit :=
  World [seq Proc (nlocal p)
                  [seq Vec3 (c0 x + d) (c1 x) (c2 x) | x <- v p]
                  (angmom p) (rmass p) (mask p) (ellipsoid p) (bonus p)
        | p <- procs w]
        (computes w) (fixes w) (dimension w) (mvv2e w) (boltz w)
        (ntimestep w) (ext w).

(** A bias that takes the stream velocity (1,0,0) off every atom and puts
    it back; [dof_remove] holds for the atoms of local index 0, and answers
    3 when asked globally. Its [init] returns, and with [compute_scalar] and
    [compute_vector] leaves the world as it is. *)
Definition ex_class : compute_class rat unit :=
  ComputeClass
    (fun _ w => Ok w) (fun _ w => w) (fun _ w => w)
    (fun _ w => ex_shift (-1) w) (fun _ w => ex_shift 1 w)
    (fun _ _ _ i => if i == -1 then 3 else if i == 0 then 1 else 0)
    (fun _ w _ _ x => (Vec3 (c0 x - 1) (c1 x) (c2 x), w))
    (fun _ w _ _ x => (Vec3 (c0 x + 1) (c1 x) (c2 x), w)).

(** One atom of the group: mass 5, semi-axes (1,2,3), so moments
    (13,10,5); orientation (1,0,0,0), so its frame is the lab frame;
    angular momentum (13,20,15), so angular velocity (1,2,3). *)
Definition ex_atom (vx : rat) : proc rat :=
  Proc 1 [:: Vec3 vx 0 0] [:: Vec3 13%:R 20%:R 15%:R] [:: 5%:R] [:: N.one]
       [:: 0] [:: MkBonus (Vec3 1 2%:R 3%:R) (Quat4 1 0 0 0)].

(** A rank with a point particle outside the group (local index 0) and
    that atom with velocity (2,1,0) (local index 1). *)
Definition ex_mixed : proc rat :=
  Proc 2 [:: Vec3 1 1 1; Vec3 2%:R 1 0] [:: Vec3 0 0 0; Vec3 13%:R 20%:R 15%:R]
       [:: 1; 5%:R] [:: N0; N.one] [:: -1; 0]
       [:: MkBonus (Vec3 1 2%:R 3%:R) (Quat4 1 0 0 0)].

Definition ex_computes : seq compute_obj :=
  [:: ComputeObj "flow" "temp/region" 1 1 0 0 0;
      ComputeObj "plain" "temp" 1 0 0 0 0].

(** One rank, one atom at rest, no fix. *)
Definition ex_world1 : world rat unit :=
  World [:: ex_atom 0] ex_computes [::] 3 1 1 1 tt.

(** Two ranks, three atoms (two of the group), two fixes with 3 and 4
    degrees of freedom. *)
Definition ex_world2 : world rat unit :=
  World [:: ex_mixed; ex_atom 3%:R] ex_computes
        [:: (fun _ => 3); (fun _ => 4)] 3 1 1 1 tt.

(** [ex_world2] after all fixes were deleted. *)
Definition ex_world2_nofix : world rat unit :=
  World [:: ex_mixed; ex_atom 3%:R] ex_computes [::] 3 1 1 1 tt.

(** A compute of group 0 (bit 1) before [init], with the members the
    constructor assigns (no bias, or the ID of a bias) and [dynamic] and
    [extra_dof] as given; the other members are zero. *)
Definition ex_state (dyn extra : int) : state rat :=
  State 0 N.one dyn extra 0 "" None 0 0 0 0 (Vec6 0 0 0 0 0 0) 0 0.

Definition ex_state_bias (id : string) : state rat :=
  State 0 N.one 0 0 1 id None 0 0 0 0 (Vec6 0 0 0 0 0 0) 0 0.

(** The state and the world [init] returns, the argument when it fails. *)
Definition ex_init (w : world rat unit) (s : state rat)
  : state rat * world rat unit :=
  if init ex_count ex_class w 0 s is Ok sw then sw else (s, w).

(** [ex_mixed] with another point particle outside the group and one more
    atom beyond [nlocal]: the atom of the group is the same. *)
Definition ex_mixed_other : proc rat :=
  Proc 2 [:: Vec3 9%:R 9%:R 9%:R; Vec3 2%:R 1 0; Vec3 7%:R 7%:R 7%:R]
       [:: Vec3 1 2%:R 3%:R; Vec3 13%:R 20%:R 15%:R; Vec3 1 1 1]
       [:: 4%:R; 5%:R; 8%:R] [:: N0; N.one; N.one] [:: -1; 0; 0]
       [:: MkBonus (Vec3 1 2%:R 3%:R) (Quat4 1 0 0 0);
           MkBonus (Vec3 4%:R 4%:R 4%:R) (Quat4 0 1 0 0)].

Definition ex_world2_other : world rat unit :=
  World [:: ex_mixed_other; ex_atom 3%:R] ex_computes [::] 3 1 1 1 tt.

(** The atom of [ex_atom] without angular momentum, turned about the x axis
    (orientation (0,1,0,0)), with velocity (1,2,3). *)
Definition ex_still : proc rat :=
  Proc 1 [:: Vec3 1 2%:R 3%:R] [:: Vec3 0 0 0] [:: 5%:R] [:: N.one]
       [:: 0] [:: MkBonus (Vec3 1 2%:R 3%:R) (Quat4 0 1 0 0)].

Definition ex_world_still : world rat unit :=
  World [:: ex_still] ex_computes [::] 3 1 1 1 tt.

(** A compute of group 1 (bit 2), to which no atom of the worlds above
    belongs. *)
Definition ex_state_group1 : state rat :=
  State 1 (N.succ N.one) 0 0 0 "" None 0 0 0 0 (Vec6 0 0 0 0 0 0) 0 0.

(** Computes of this class built with three and with four arguments, and a
    world where each is registered under the ID "inner". *)
Definition ex_built (arg : seq string) : compute_flags * state rat :=
  if construct (ex_state 0 0) arg true is Ok r then r
  else (ComputeFlags 0 0 0 0 0 0, ex_state 0 0).

Definition ex_args3 : seq string := [:: "inner"; "all"; "temp/asphere"]%string.
Definition ex_args4 : seq string :=
  [:: "inner"; "all"; "temp/asphere"; "flow"]%string.

Definition ex_world_inner (arg : seq string) : world rat unit :=
  World [:: ex_atom 0]
        [:: registered "inner" "temp/asphere" (ex_built arg).1 (ex_built arg).2]
        [::] 3 1 1 1 tt.

(** The class of the computes of a world whose entry 0 is a compute of
    this class with the members [sb], its own bias being of class
    [ex_class]: the virtual call of [init] on entry 0 runs the [init] above
    on [sb]; the other methods are those of [ex_class]. *)
Definition ex_class_nested (sb : state rat) : compute_class rat unit :=
  ComputeClass
    (fun h w => if h == 0%N
                then bind (init ex_count ex_class w 0 sb) (fun sw => Ok sw.2)
                else Ok w)
    (bias_compute_scalar ex_class) (bias_compute_vector ex_class)
    (bias_remove_bias_all ex_class) (bias_restore_bias_all ex_class)
    (bias_dof_remove ex_class) (bias_remove_bias ex_class)
    (bias_restore_bias ex_class).

(** The world of "inner" built with four arguments, with its bias "flow"
    registered as well. *)
Definition ex_world_inner_flow : world rat unit :=
  World [:: ex_atom 0]
        (registered "inner" "temp/asphere" (ex_built ex_args4).1
                    (ex_built ex_args4).2 :: ex_computes)
        [::] 3 1 1 1 tt.


(** ** Properties *)

Section Properties.

Variable F : realFieldType.
Variable P : Type.
Variable group_count : world F P -> int -> nat.
Variable cls : compute_class F P.

Local Notation proc := (proc F).
Local Notation world := (world F P).
Local Notation state := (state F).
Local Notation dof_compute := (dof_compute group_count cls).
Local Notation compute_scalar := (compute_scalar group_count cls).
Local Notation compute_vector := (compute_vector cls).
Local Notation init := (init group_count cls).
Local Notation evolves := (evolves group_count cls).

(** *** Loops and reductions as sums *)

Lemma allreduce_sumE (V : nmodType) (n : nat) (f : nat -> V) :
  allreduce_sum n f = \sum_(0 <= r < n) f r.
Proof.
rewrite /allreduce_sum /index_iota subn0.
by elim: (iota 0 n) => [|r l IH] /=; rewrite ?big_nil ?big_cons ?IH.
Qed.

Lemma foldl_guarded_sum (A : Type) (V : nmodType) (pr : A -> V)
    (body : nat -> A -> A) (f : nat -> V) (g : pred nat) :
  (forall i t, pr (body i t) = pr t + f i) ->
  forall (l : seq nat) (t : A),
    pr (foldl (fun t i => if g i then body i t else t) t l)
    = pr t + \sum_(i <- l | g i) f i.
Proof.
move=> Hbody; elim=> [|i l IH] t /=; first by rewrite big_nil addr0.
rewrite IH big_cons; case: (g i) => //.
by rewrite Hbody addrA.
Qed.

Lemma scalar_bodyE (p : proc) (i : nat) (t : F) :
  scalar_body p i t = t + (ke_trans p i + ke_rot p i).
Proof.
rewrite /scalar_body /ke_trans /ke_rot /omega_body /inertia /=.
rewrite /moment_x /moment_y /moment_z !expr2 -!mulrA.
by rewrite -addrA [_ * rmass_at p i]mulrC.
Qed.

Lemma scalar_loopE (gb : N) (p : proc) :
  scalar_loop gb p
  = \sum_(0 <= i < nlocal p | in_group gb p i) (ke_trans p i + ke_rot p i).
Proof.
rewrite /scalar_loop (@foldl_guarded_sum F F id _ _ _ (scalar_bodyE p)) add0r.
by rewrite /index_iota subn0.
Qed.

Lemma scalar_reduceE (w : world) (s : state) :
  scalar_reduce w s
  = group_sum w (groupbit s) (fun p i => ke_trans p i + ke_rot p i).
Proof.
rewrite /scalar_reduce allreduce_sumE /group_sum.
by apply: eq_bigr => r _; rewrite scalar_loopE.
Qed.

(** What one atom adds to the six entries of [t]. *)
Lemma vector_bodyE (p : proc) (i : nat) (t : vec6 F) :
  vector_body p i t
  = Vec6 (t0 t + (rmass_at p i * c0 (v_at p i) ^+ 2
                  + c0 (inertia p i) * c0 (omega_body p i) ^+ 2))
         (t1 t + (rmass_at p i * c1 (v_at p i) ^+ 2
                  + c1 (inertia p i) * c1 (omega_body p i) ^+ 2))
         (t2 t + (rmass_at p i * c2 (v_at p i) ^+ 2
                  + c2 (inertia p i) * c2 (omega_body p i) ^+ 2))
         (t3 t + (trans_xy p i + rot_xy p i))
         (t4 t + (trans_xz p i + rot_xz p i))
         (t5 t + (trans_yz p i + rot_yz p i)).
Proof.
rewrite /vector_body /trans_xy /trans_xz /trans_yz /rot_xy /rot_xz /rot_yz.
rewrite /omega_body /inertia /moment_x /moment_y /moment_z /= !expr2.
by rewrite -!addrA -!mulrA.
Qed.

(** An entry of the reduced array is the sum over the group of what each
    atom adds to it. *)
Lemma vector_reduce_entry (pr : vec6 F -> F) (f : proc -> nat -> F)
    (w : world) (s : state) :
  pr vec6_0 = 0 ->
  (forall p i t, pr (vector_body p i t) = pr t + f p i) ->
  allreduce_sum (nprocs w) (fun r => pr (vector_loop (groupbit s) (rank w r)))
  = group_sum w (groupbit s) f.
Proof.
move=> H0 Hbody; rewrite allreduce_sumE /group_sum.
apply: eq_bigr => r _; rewrite /vector_loop.
rewrite (@foldl_guarded_sum _ F pr _ (f (rank w r)) _ (Hbody (rank w r))).
by rewrite H0 add0r /index_iota subn0.
Qed.

Lemma vector_reduce_xx (w : world) (s : state) :
  t0 (vector_reduce w s)
  = group_sum w (groupbit s) (fun p i =>
      rmass_at p i * c0 (v_at p i) ^+ 2
      + c0 (inertia p i) * c0 (omega_body p i) ^+ 2).
Proof.
by apply: vector_reduce_entry => // p i t; rewrite vector_bodyE.
Qed.

Lemma vector_reduce_yy (w : world) (s : state) :
  t1 (vector_reduce w s)
  = group_sum w (groupbit s) (fun p i =>
      rmass_at p i * c1 (v_at p i) ^+ 2
      + c1 (inertia p i) * c1 (omega_body p i) ^+ 2).
Proof.
by apply: vector_reduce_entry => // p i t; rewrite vector_bodyE.
Qed.

Lemma vector_reduce_zz (w : world) (s : state) :
  t2 (vector_reduce w s)
  = group_sum w (groupbit s) (fun p i =>
      rmass_at p i * c2 (v_at p i) ^+ 2
      + c2 (inertia p i) * c2 (omega_body p i) ^+ 2).
Proof.
by apply: vector_reduce_entry => // p i t; rewrite vector_bodyE.
Qed.

Lemma vector_reduce_xy (w : world) (s : state) :
  t3 (vector_reduce w s)
  = group_sum w (groupbit s) (fun p i => trans_xy p i + rot_xy p i).
Proof.
by apply: vector_reduce_entry => // p i t; rewrite vector_bodyE.
Qed.

Lemma vector_reduce_xz (w : world) (s : state) :
  t4 (vector_reduce w s)
  = group_sum w (groupbit s) (fun p i => trans_xz p i + rot_xz p i).
Proof.
by apply: vector_reduce_entry => // p i t; rewrite vector_bodyE.
Qed.

Lemma vector_reduce_yz (w : world) (s : state) :
  t5 (vector_reduce w s)
  = group_sum w (groupbit s) (fun p i => trans_yz p i + rot_yz p i).
Proof.
by apply: vector_reduce_entry => // p i t; rewrite vector_bodyE.
Qed.

Lemma group_sumD (w : world) (gb : N) (f g : proc -> nat -> F) :
  group_sum w gb (fun p i => f p i + g p i)
  = group_sum w gb f + group_sum w gb g.
Proof.
rewrite /group_sum -big_split /=.
by apply: eq_bigr => r _; rewrite big_split.
Qed.

(** *** The rigid-body kernel *)

(** C2. For every atom of the group, with mass m, semi-axes (a,b,c),
    orientation q and angular momentum L, the loop body of [compute_scalar]
    adds m (vx^2+vy^2+vz^2) + Ix wx^2 + Iy wy^2 + Iz wz^2 to the sum, where
    Ix = m (b^2+c^2)/5, Iy = m (a^2+c^2)/5, Iz = m (a^2+b^2)/5 and
    (wx,wy,wz) is R^T(q) L divided componentwise by (Ix,Iy,Iz); the body of
    [compute_vector] adds the same three squares to its diagonal entries;
    and the scalar returned is the sum of these contributions over the
    group on all ranks, taken on the velocities left by the bias removal,
    times [tfactor]. *)
Theorem kernel_rotational_energy (w : world) (me : nat) (s : state)
    (p : proc) (i : nat) (t : F) (t6 : vec6 F) :
  let m := rmass_at p i in
  let a := c0 (shape (bonus_at p i)) in
  let b := c1 (shape (bonus_at p i)) in
  let c := c2 (shape (bonus_at p i)) in
  let Ix := m * (b ^+ 2 + c ^+ 2) / 5%:R in
  let Iy := m * (a ^+ 2 + c ^+ 2) / 5%:R in
  let Iz := m * (a ^+ 2 + b ^+ 2) / 5%:R in
  let l := transpose_matvec (quat_to_mat (quat (bonus_at p i))) (angmom_at p i) in
  let wx := c0 l / Ix in
  let wy := c1 l / Iy in
  let wz := c2 l / Iz in
  [/\ inertia p i = Vec3 Ix Iy Iz,
      omega_body p i = Vec3 wx wy wz,
      scalar_body p i t
      = t + (ke_trans p i + (Ix * wx ^+ 2 + Iy * wy ^+ 2 + Iz * wz ^+ 2)),
      [/\ t0 (vector_body p i t6)
          = t0 t6 + (m * c0 (v_at p i) ^+ 2 + Ix * wx ^+ 2),
          t1 (vector_body p i t6)
          = t1 t6 + (m * c1 (v_at p i) ^+ 2 + Iy * wy ^+ 2) &
          t2 (vector_body p i t6)
          = t2 t6 + (m * c2 (v_at p i) ^+ 2 + Iz * wz ^+ 2)] &
      scalar (compute_scalar w me s).1
      = group_sum (scalar_remove_bias cls w s) (groupbit s)
                  (fun p i => ke_trans p i + ke_rot p i)
        * tfactor (compute_scalar w me s).1].
Proof.
move=> m a b c Ix Iy Iz l wx wy wz; split=> //.
- by rewrite scalar_bodyE.
- by rewrite vector_bodyE.
- by rewrite /compute_scalar /= -scalar_reduceE.
Qed.

(** The members [compute_vector] and [compute_scalar] assign. *)
Lemma compute_vectorE (w : world) (s : state) :
  vector (compute_vector w s).1
  = scale6 (vector_reduce (vector_remove_bias cls w s) s)
           (mvv2e (compute_vector w s).2).
Proof. by []. Qed.

Lemma compute_scalarE (w : world) (me : nat) (s : state) :
  scalar (compute_scalar w me s).1
  = scalar_reduce (scalar_remove_bias cls w s) s
    * tfactor (compute_scalar w me s).1.
Proof. by []. Qed.

Lemma scale6_t0 (x : vec6 F) (k : F) : t0 (scale6 x k) = t0 x * k.
Proof. by []. Qed.

Lemma scale6_t1 (x : vec6 F) (k : F) : t1 (scale6 x k) = t1 x * k.
Proof. by []. Qed.

Lemma scale6_t2 (x : vec6 F) (k : F) : t2 (scale6 x k) = t2 x * k.
Proof. by []. Qed.

Lemma scale6_t3 (x : vec6 F) (k : F) : t3 (scale6 x k) = t3 x * k.
Proof. by []. Qed.

Lemma scale6_t4 (x : vec6 F) (k : F) : t4 (scale6 x k) = t4 x * k.
Proof. by []. Qed.

Lemma scale6_t5 (x : vec6 F) (k : F) : t5 (scale6 x k) = t5 x * k.
Proof. by []. Qed.

(** *** The six entries of the tensor *)

(** C1 (as amended). [compute_vector] adds to the entries xy, xz, yz the
    rotational cross terms Ix wx wy, Iy wx wz, Iz wy wz (the moment of the
    slot's own axis, times the two angular velocities the entry is named
    after), next to the translational terms m vx vy, m vx vz, m vy vz; the
    entries returned are the sums of these terms over the group on all
    ranks, times [mvv2e]. *)
Theorem vector_cross_terms (w : world) (s : state) (p : proc) (i : nat)
    (t : vec6 F) :
  let Ix := c0 (inertia p i) in
  let Iy := c1 (inertia p i) in
  let Iz := c2 (inertia p i) in
  let wx := c0 (omega_body p i) in
  let wy := c1 (omega_body p i) in
  let wz := c2 (omega_body p i) in
  let x := vector (compute_vector w s).1 in
  let k := mvv2e (compute_vector w s).2 in
  [/\ [/\ t3 (vector_body p i t) = t3 t + (trans_xy p i + Ix * wx * wy),
          t4 (vector_body p i t) = t4 t + (trans_xz p i + Iy * wx * wz) &
          t5 (vector_body p i t) = t5 t + (trans_yz p i + Iz * wy * wz)],
      t3 x = group_sum (vector_remove_bias cls w s) (groupbit s)
                       (fun p i => trans_xy p i + rot_xy p i) * k,
      t4 x = group_sum (vector_remove_bias cls w s) (groupbit s)
                       (fun p i => trans_xz p i + rot_xz p i) * k &
      t5 x = group_sum (vector_remove_bias cls w s) (groupbit s)
                       (fun p i => trans_yz p i + rot_yz p i) * k].
Proof.
move=> Ix Iy Iz wx wy wz x k; split.
- by rewrite vector_bodyE.
- by rewrite /x compute_vectorE scale6_t3 vector_reduce_xy.
- by rewrite /x compute_vectorE scale6_t4 vector_reduce_xz.
- by rewrite /x compute_vectorE scale6_t5 vector_reduce_yz.
Qed.

(** C6. The diagonal entries accumulated by [compute_vector] add up to the
    energy sum accumulated by [compute_scalar] on the same atoms; hence the
    trace returned by [compute_vector] is that sum times [mvv2e], while
    [compute_scalar] returns that sum times [tfactor]. *)
Theorem trace_is_scalar_sum (w : world) (me : nat) (s : state) :
  let x := vector (compute_vector w s).1 in
  [/\ forall w' : world,
        t0 (vector_reduce w' s) + t1 (vector_reduce w' s)
        + t2 (vector_reduce w' s) = scalar_reduce w' s,
      t0 x + t1 x + t2 x
      = scalar_reduce (vector_remove_bias cls w s) s
        * mvv2e (compute_vector w s).2 &
      scalar (compute_scalar w me s).1
      = scalar_reduce (scalar_remove_bias cls w s) s
        * tfactor (compute_scalar w me s).1].
Proof.
move=> x.
have Htr (w' : world) : t0 (vector_reduce w' s) + t1 (vector_reduce w' s)
              + t2 (vector_reduce w' s) = scalar_reduce w' s.
  rewrite scalar_reduceE vector_reduce_xx vector_reduce_yy vector_reduce_zz.
  rewrite -!group_sumD /group_sum.
  apply: eq_bigr => r _; apply: eq_bigr => i _.
  rewrite /ke_trans /ke_rot !mulrDr.
  by rewrite [X in X + _ = _]addrACA addrACA.
split=> //.
by rewrite /x compute_vectorE -Htr !mulrDl scale6_t0 scale6_t1 scale6_t2.
Qed.

(** *** Degrees of freedom *)

Lemma dof_countE (w : world) (s : state) (r : nat) :
  dof_count cls w s r
  = Posz (count (fun i => in_group (groupbit s) (rank w r) i
                          && (bias_dof_remove cls (deref (tbias s)) w r (Posz i) != 0))
                (iota 0 (nlocal (rank w r)))).
Proof.
rewrite /dof_count -[RHS]add0r; move: {2 3}(0 : int).
elim: (iota 0 _) => [|i l IH] c /=; first by rewrite addr0.
rewrite IH; case: (in_group _ _ _) => /=; last by rewrite add0n.
case: (_ != 0) => /=; last by rewrite add0n.
by rewrite -addrA -PoszD add1n.
Qed.

Lemma dof_count_all (w : world) (s : state) :
  allreduce_sum (nprocs w) (dof_count cls w s) = Posz (dof_removed cls w s).
Proof.
rewrite allreduce_sumE /dof_removed (big_morph Posz PoszD (erefl _)).
by apply: eq_bigr => r _; rewrite dof_countE.
Qed.

Lemma dof_compute_fields (w : world) (me : nat) (s : state) :
  let natoms : F := (group_count w (igroup s))%:R in
  let d : F :=
    (nper w)%:~R * natoms
    - (if tempbias s == 1 then
         (bias_dof_remove cls (deref (tbias s)) w me (-1))%:~R * natoms
       else if tempbias s == 2 then
         (nper w)%:~R * (dof_removed cls w s)%:R
       else 0)
    - ((extra_dof s)%:~R + (fix_dof s)%:~R) in
  dof_compute w me s
  = set_dof s d (if 0 < d then mvv2e w / (d * boltz w) else 0).
Proof.
move=> natoms d; rewrite /dof_compute -/(nper w) -/natoms.
set d' := (X in if 0 < X then _ else _); rewrite -/d'.
have -> : d' = d.
  rewrite /d' /d rmorphD /=; congr (_ - _).
  case: ifP => _ //; case: ifP => _; last by rewrite subr0.
  by rewrite dof_count_all rmorphM /= -pmulrn.
by case: ifP.
Qed.


Lemma dof_compute_tfactor (w : world) (me : nat) (s : state) :
  tfactor (dof_compute w me s)
  = if 0 < dof (dof_compute w me s)
    then mvv2e w / (dof (dof_compute w me s) * boltz w) else 0.
Proof. by rewrite dof_compute_fields. Qed.

Lemma dof_compute_guard (w : world) (me : nat) (s : state) :
  dof (dof_compute w me s) <= 0 -> tfactor (dof_compute w me s) = 0.
Proof. by rewrite dof_compute_tfactor => /le_gtF ->. Qed.

(** Only [dof] and [tfactor] are assigned by [dof_compute], and the stamp
    [invoked_scalar] plays no part in it. *)
Lemma dof_compute_invoked (w : world) (me : nat) (s : state) (n : int) :
  dof_compute w me (set_invoked_scalar s n)
  = set_invoked_scalar (dof_compute w me s) n.
Proof. by rewrite !dof_compute_fields. Qed.

Lemma compute_scalar_state (w : world) (me : nat) (s : state) :
  (dof (compute_scalar w me s).1, tfactor (compute_scalar w me s).1)
  = if (dynamic s != 0) || (tempbias s == 2)
    then (dof (dof_compute (compute_scalar w me s).2 me s),
          tfactor (dof_compute (compute_scalar w me s).2 me s))
    else (dof s, tfactor s).
Proof.
rewrite /compute_scalar /=; case: ifP => _ //.
by rewrite dof_compute_invoked.
Qed.

(** Whatever was evaluated since the last [dof_compute], a non-positive
    [dof] comes with a zero [tfactor]. *)
Lemma evolves_guard (w0 : world) (me0 : nat) (s0 s : state) :
  evolves (dof_compute w0 me0 s0) s -> dof s <= 0 -> tfactor s = 0.
Proof.
elim=> [|w me s1 _ IH|w s1 _ IH|w me s1 _ _]; try exact: dof_compute_guard.
- have := compute_scalar_state w me s1; case: ifP => _ [-> ->] //.
  exact: dof_compute_guard.
- exact: IH.
Qed.

(** C4. In every state reached after a [dof_compute] (the last step of
    [init]), a [dof] that is not positive comes with [tfactor] exactly 0:
    [dof_compute] returns a state and raises nothing. Then [compute_scalar]
    returns 0, whatever the velocities and angular momenta of the world it
    runs in. *)
Theorem nonpositive_dof_zero (w0 : world) (me0 : nat) (s0 s : state)
    (w : world) (me : nat) :
  evolves (dof_compute w0 me0 s0) s ->
  (dof s <= 0 -> tfactor s = 0)
  /\ (dof (compute_scalar w me s).1 <= 0 ->
      tfactor (compute_scalar w me s).1 = 0
      /\ scalar (compute_scalar w me s).1 = 0).
Proof.
move=> Hs; split; first exact: evolves_guard Hs.
move=> Hdof.
have Htf : tfactor (compute_scalar w me s).1 = 0.
  by apply: evolves_guard Hdof; apply: evolves_scalar Hs.
by rewrite compute_scalarE Htf mulr0.
Qed.

(** C5 (as amended). [compute_scalar] returns the reduced energy sum times
    [tfactor]. [dof] and [tfactor] are recomputed by [dof_compute] before
    the scaling exactly when [dynamic] is set or the bias is region-local,
    and are the stored ones otherwise; the [tfactor] a [dof_compute] stores
    is mvv2e / (dof * boltz) when its [dof] is positive and 0 otherwise.
    [compute_vector] returns the reduced six entries times [mvv2e] and
    leaves [dof] and [tfactor] as they were. *)
Theorem scalar_vector_scaling (w : world) (me : nat) (s : state) :
  let rs := compute_scalar w me s in
  let rv := compute_vector w s in
  let recompute := (dynamic s != 0) || (tempbias s == 2) in
  [/\ scalar rs.1
      = scalar_reduce (scalar_remove_bias cls w s) s * tfactor rs.1,
      (dof rs.1, tfactor rs.1)
      = (if recompute
         then (dof (dof_compute rs.2 me s), tfactor (dof_compute rs.2 me s))
         else (dof s, tfactor s)),
      forall (w' : world) (me' : nat) (s' : state),
        tfactor (dof_compute w' me' s')
        = if 0 < dof (dof_compute w' me' s')
          then mvv2e w' / (dof (dof_compute w' me' s') * boltz w') else 0,
      vector rv.1
      = scale6 (vector_reduce (vector_remove_bias cls w s) s) (mvv2e rv.2)
    & dof rv.1 = dof s /\ tfactor rv.1 = tfactor s].
Proof.
move=> rs rv recompute; split=> //.
- exact: compute_scalar_state.
- exact: dof_compute_tfactor.
Qed.

(** *** Initialisation *)

Lemma point_particleE (gb : N) (p : proc) :
  point_particle gb p
  = has (fun i => in_group gb p i && (ellipsoid_at p i < 0))
        (iota 0 (nlocal p)).
Proof.
rewrite /point_particle -[RHS]/(false || _); move: {2 3}false.
elim: (iota 0 _) => [|i l IH] err /=; first by rewrite orbF.
by rewrite IH; case: err => //=; case: (in_group gb p i).
Qed.

Lemma sum_fix_dofE (w : world) (g : int) :
  sum_fix_dof w g = \sum_(f <- fixes w) f g.
Proof.
rewrite /sum_fix_dof -[RHS]add0r; move: {1 2}(0 : int).
elim: (fixes w) => [|f l IH] c /=; first by rewrite big_nil addr0.
by rewrite IH big_cons addrA.
Qed.

(** What makes [init] stop the run. *)
Lemma init_fatalE (w : world) (me : nat) (s : state) :
  is_fatal (init w me s)
  = has_point_particle w (groupbit s)
    || (tempbias s != 0)
       && [|| bias_unresolved w s, bias_lacks_flag w s,
              bias_group_mismatch w s | bias_init_fails cls w s].
Proof.
rewrite /init /has_point_particle (eq_has (point_particleE (groupbit s))).
case: has => //=.
rewrite /init_bias /bias_unresolved /bias_lacks_flag /bias_group_mismatch.
rewrite /bias_init_fails /the_bias; case: (tempbias s != 0) => //=.
case: (find_compute _ _ < 0) => //=.
case: (c_tempflag _ == 0) => //=; case: (c_tempbias _ == 0) => //=.
case: (c_igroup _ != igroup s) => //=.
by case: (bias_init _ _ _) => //= w1; case: String.eqb.
Qed.

(** What [init] returns when it returns. *)
Lemma init_okE (w : world) (me : nat) (s : state) :
  is_fatal (init w me s) = false ->
  init w me s
  = Ok (dof_compute (init_world cls w s) me (init_state cls w s),
        init_world cls w s).
Proof.
rewrite /init /init_state /init_world /init_bias.
case: has => //=; case: (tempbias s != 0) => //=.
case: (find_compute _ _ < 0) => //=.
case: (c_tempflag _ == 0) => //=; case: (c_tempbias _ == 0) => //=.
case: (c_igroup _ != igroup s) => //=.
by case: (bias_init _ _ _) => //= w1; case: String.eqb.
Qed.

Lemma init_ok_inv (w : world) (me : nat) (s s1 : state) (w1 : world) :
  init w me s = Ok (s1, w1) ->
  w1 = init_world cls w s /\ s1 = dof_compute w1 me (init_state cls w s).
Proof.
move=> H; have := @init_okE w me s; rewrite H => /(_ (erefl _)) [-> ->].
by [].
Qed.

(** Past the checks of lines 86-100, [init] stops if the [init] of the
    bias does, with its message, and returns otherwise. *)
Lemma init_past_checks (w : world) (me : nat) (s : state) :
  has_point_particle w (groupbit s) = false -> tempbias s != 0 ->
  bias_unresolved w s = false -> bias_lacks_flag w s = false ->
  bias_group_mismatch w s = false ->
  init w me s
  = if bias_init cls `|find_compute w (id_bias s)|%N w is Fatal msg
    then Fatal msg
    else Ok (dof_compute (init_world cls w s) me (init_state cls w s),
             init_world cls w s).
Proof.
move=> Hpp Hb Hu Hl Hm.
case Hi: (bias_init _ _ _) => [w1|msg].
  by apply: init_okE; rewrite init_fatalE Hpp Hb Hu Hl Hm /bias_init_fails Hi.
rewrite /init /has_point_particle in Hpp *.
rewrite (eq_has (point_particleE (groupbit s))) Hpp /init_bias Hb.
move: Hu Hl Hm; rewrite /bias_unresolved /bias_lacks_flag /bias_group_mismatch.
by rewrite /the_bias => -> /norP [/negbTE -> /negbTE ->] -> /=; rewrite Hi.
Qed.

(** [init] leaves the bias pointer resolved whenever a bias is configured,
    with kind 2 for the style temp/region and kind 1 otherwise. *)
Lemma init_resolves_tbias (w : world) (me : nat) (s s1 : state) (w1 : world) :
  init w me s = Ok (s1, w1) -> tempbias s != 0 ->
  tbias s1 = Some `|find_compute w (id_bias s)|%N
  /\ tempbias s1
     = if String.eqb (c_style (compute_at w1 `|find_compute w (id_bias s)|%N))
                     "temp/region" then 2 else 1.
Proof.
move=> /init_ok_inv [-> ->] Hb; rewrite !dof_compute_fields /init_state Hb /=.
by case: String.eqb.
Qed.

(** C8 (as amended). [init] stops the run exactly when some rank owns an
    atom of the group without an ellipsoid record, or a bias is configured
    and either its ID is not found, or the compute found does not compute a
    temperature, or it does not compute a velocity bias (one missing flag
    is enough), or its group is not the group of this compute, or the
    [init] of that compute, called at line 101 once these checks have
    passed, stops the run itself; the message is then the one of the bias.
    Otherwise [init] returns, with the fixes summed and the degrees of
    freedom computed by [dof_compute]. *)
Theorem init_fatal_exactly (w : world) (me : nat) (s : state) :
  let bad :=
    has_point_particle w (groupbit s)
    || (tempbias s != 0)
       && [|| bias_unresolved w s,
              (c_tempflag (the_bias w s) == 0) || (c_tempbias (the_bias w s) == 0),
              bias_group_mismatch w s
            | bias_init_fails cls w s] in
  [/\ is_fatal (init w me s) = bad,
      (if bad then True
       else init w me s
            = Ok (dof_compute (init_world cls w s) me (init_state cls w s),
                  init_world cls w s))
    & forall msg : string,
        has_point_particle w (groupbit s) = false ->
        tempbias s != 0 ->
        [|| bias_unresolved w s,
            (c_tempflag (the_bias w s) == 0) || (c_tempbias (the_bias w s) == 0)
          | bias_group_mismatch w s] = false ->
        bias_init cls `|find_compute w (id_bias s)|%N w = Fatal msg ->
        init w me s = Fatal msg].
Proof.
move=> bad; have Hf : is_fatal (init w me s) = bad by rewrite init_fatalE.
split=> //; first by case Hb: bad => //; apply: init_okE; rewrite Hf.
move=> msg; rewrite /init /has_point_particle.
rewrite (eq_has (point_particleE (groupbit s))) => -> /=.
rewrite /init_bias /bias_unresolved /bias_group_mismatch /the_bias => ->.
by case/norP=> /negbTE -> /norP [/norP [/negbTE -> /negbTE ->] /negbTE ->] ->.
Qed.

(** *** The stored sum of the fixes *)

(** The evaluation methods assign neither [fix_dof], nor [extra_dof], nor
    the group. *)
Lemma evolves_frozen (s1 s : state) :
  evolves s1 s ->
  [/\ fix_dof s = fix_dof s1, extra_dof s = extra_dof s1
    & igroup s = igroup s1].
Proof.
elim=> [|w me s2 _ [H1 H2 H3]|w s2 _ [H1 H2 H3]|w me s2 _ [H1 H2 H3]] //.
- rewrite /compute_scalar /=; case: ifP => _ //.
  by rewrite dof_compute_fields.
- by rewrite dof_compute_fields.
Qed.

(** C9. [init] asks every fix of [modify->fix] once, in the world it runs
    in, and stores the sum in [fix_dof]. In every state reached from there
    by evaluations, [fix_dof] is still that sum, and [dof_compute], called
    directly or by [compute_scalar] when [dynamic] is set or the bias is
    region-local, takes that stored sum off, in whatever world it runs: the
    fixes of the world of the evaluation do not enter its result. *)
Theorem fix_dof_frozen (w0 : world) (me0 : nat) (s0 s1 : state) (w1 : world)
    (s : state) (w : world) (me : nat) :
  init w0 me0 s0 = Ok (s1, w1) -> evolves s1 s ->
  let stored : int := \sum_(f <- fixes w1) f (igroup s0) in
  let rs := compute_scalar w me s in
  [/\ fix_dof s1 = stored, fix_dof s = stored,
      dof (dof_compute w me s)
      = dof_unconstrained group_count cls w me s - (extra_dof s + stored)%:~R
    & dof rs.1
      = if (dynamic s != 0) || (tempbias s == 2)
        then dof_unconstrained group_count cls rs.2 me s - (extra_dof s + stored)%:~R
        else dof s].
Proof.
move=> /init_ok_inv [Hw1 Hs1] /evolves_frozen [Hfix _ _] stored rs.
have Hst : fix_dof s1 = stored.
  by rewrite Hs1 dof_compute_fields /init_state /= -Hw1 sum_fix_dofE.
have Hdof w' : dof (dof_compute w' me s)
               = dof_unconstrained group_count cls w' me s - (extra_dof s + stored)%:~R.
  by rewrite dof_compute_fields /= rmorphD /= Hfix Hst.
split=> //; first by rewrite Hfix.
have := compute_scalar_state w me s; rewrite -/rs.
by case: ifP => _ [-> _] //; rewrite Hdof.
Qed.

(** *** The bias protocol *)

(** C7. With a bias configured ([tempbias] nonzero), [compute_scalar] and
    [compute_vector] run their accumulation pass on the world left by
    [remove_bias_all] and return the world left by [restore_bias_all]
    applied to it, whatever the pass summed; so, when restoring undoes
    removing on the velocities, the velocities returned are those the
    removal found. Without a bias the world is returned as it was. *)
Theorem bias_brackets_accumulation (w : world) (me : nat) (s : state) :
  let h := deref (tbias s) in
  let ws := if c_invoked_scalar (compute_at w h) != ntimestep w
            then bias_compute_scalar cls h w else w in
  let wv := if c_invoked_vector (compute_at w h) != ntimestep w
            then bias_compute_vector cls h w else w in
  let rs := compute_scalar w me s in
  let rv := compute_vector w s in
  if tempbias s != 0 then
    [/\ rs.2 = bias_restore_bias_all cls h (bias_remove_bias_all cls h ws),
        scalar rs.1
        = scalar_reduce (bias_remove_bias_all cls h ws) s * tfactor rs.1,
        rv.2 = bias_restore_bias_all cls h (bias_remove_bias_all cls h wv),
        vector rv.1
        = scale6 (vector_reduce (bias_remove_bias_all cls h wv) s)
                 (mvv2e rv.2)
      & (forall w' : world,
           velocities (bias_restore_bias_all cls h (bias_remove_bias_all cls h w'))
           = velocities w') ->
        velocities rs.2 = velocities ws /\ velocities rv.2 = velocities wv]
  else rs.2 = w /\ rv.2 = w.
Proof.
move=> h ws wv rs rv.
have Hs : rs.2 = if tempbias s != 0
                 then bias_restore_bias_all cls h (bias_remove_bias_all cls h ws)
                 else w.
  rewrite /rs /compute_scalar /restore_after_pass /scalar_remove_bias /=.
  by case: (tempbias s != 0).
have Hv : rv.2 = if tempbias s != 0
                 then bias_restore_bias_all cls h (bias_remove_bias_all cls h wv)
                 else w.
  rewrite /rv /compute_vector /restore_after_pass /vector_remove_bias /=.
  by case: (tempbias s != 0).
have Es := compute_scalarE w me s.
have Ev := compute_vectorE w s.
move: Hs Hv Es Ev; rewrite -/rs -/rv /scalar_remove_bias /vector_remove_bias.
rewrite -/h -/ws -/wv; case: ifP => _ Hs Hv Es Ev //.
by split=> // Hinv; rewrite Hs Hv !Hinv.
Qed.

(** *** Sums over the ranks and over the atoms of a rank *)

Lemma group_sum_procs (w : world) (gb : N) (f : proc -> nat -> F) :
  group_sum w gb f = \sum_(p <- procs w) rank_sum gb f p.
Proof. by rewrite /group_sum [RHS](big_nth proc_0). Qed.

Lemma vec6_eq (x y : vec6 F) :
  t0 x = t0 y -> t1 x = t1 y -> t2 x = t2 y ->
  t3 x = t3 y -> t4 x = t4 y -> t5 x = t5 y -> x = y.
Proof. by case: x => ? ? ? ? ? ?; case: y => ? ? ? ? ? ? /= -> -> -> -> -> ->. Qed.

Lemma vector_reduceE (w : world) (s : state) :
  vector_reduce w s
  = Vec6 (group_sum w (groupbit s) (fun p i => t0 (vector_term p i)))
         (group_sum w (groupbit s) (fun p i => t1 (vector_term p i)))
         (group_sum w (groupbit s) (fun p i => t2 (vector_term p i)))
         (group_sum w (groupbit s) (fun p i => t3 (vector_term p i)))
         (group_sum w (groupbit s) (fun p i => t4 (vector_term p i)))
         (group_sum w (groupbit s) (fun p i => t5 (vector_term p i))).
Proof.
apply: vec6_eq; rewrite [RHS]/=.
- exact: vector_reduce_xx.
- exact: vector_reduce_yy.
- exact: vector_reduce_zz.
- exact: vector_reduce_xy.
- exact: vector_reduce_xz.
- exact: vector_reduce_yz.
Qed.

(** The reads of the two halves of a rank. *)
Lemma split_hi_reads (gb : N) (k : nat) (p : proc) (i : nat) :
  [/\ v_at (split_hi k p) i = v_at p (k + i),
      angmom_at (split_hi k p) i = angmom_at p (k + i),
      rmass_at (split_hi k p) i = rmass_at p (k + i),
      bonus_at (split_hi k p) i = bonus_at p (k + i)
    & in_group gb (split_hi k p) i = in_group gb p (k + i)].
Proof.
rewrite /v_at /angmom_at /rmass_at /bonus_at /in_group /mask_at /ellipsoid_at.
by rewrite /= !nth_drop.
Qed.

Lemma split_hi_terms (k : nat) (p : proc) (i : nat) :
  scalar_term (split_hi k p) i = scalar_term p (k + i)
  /\ vector_term (split_hi k p) i = vector_term p (k + i).
Proof.
have [Hv Ha Hm Hb _] := split_hi_reads N0 k p i.
rewrite /scalar_term /vector_term /ke_trans /ke_rot /trans_xy /trans_xz.
rewrite /trans_yz /rot_xy /rot_xz /rot_yz /omega_body /inertia.
by rewrite Hv Ha Hm Hb.
Qed.

Lemma rank_sum_split (gb : N) (f : proc -> nat -> F) (k : nat) (p : proc) :
  (k <= nlocal p)%N ->
  (forall i, f (split_lo k p) i = f p i) ->
  (forall i, f (split_hi k p) i = f p (k + i)%N) ->
  rank_sum gb f p
  = rank_sum gb f (split_lo k p) + rank_sum gb f (split_hi k p).
Proof.
move=> Hk Hlo Hhi; rewrite /rank_sum (@big_cat_nat _ _ _ k) //=.
congr (_ + _); first by apply: eq_bigr => i _; rewrite Hlo.
rewrite -{1}[k]add0n big_addn; apply: eq_big => i.
  by case: (split_hi_reads gb k p i) => _ _ _ _ ->; rewrite addnC.
by rewrite Hhi addnC.
Qed.

(** *** Evaluations without a bias *)

Lemma nobias_worlds (w : world) (me : nat) (s : state) :
  tempbias s = 0 ->
  [/\ scalar_remove_bias cls w s = w, vector_remove_bias cls w s = w,
      (compute_scalar w me s).2 = w & (compute_vector w s).2 = w].
Proof.
move=> H0.
rewrite /compute_scalar /compute_vector /restore_after_pass.
by rewrite /scalar_remove_bias /vector_remove_bias /= H0.
Qed.

(** Without a bias, what [dof_compute] stores depends on the world only
    through the dimension, the count of the group and the two constants. *)
Lemma nobias_dof_compute (w1 w2 : world) (me : nat) (s : state) :
  tempbias s = 0 -> dimension w2 = dimension w1 ->
  mvv2e w2 = mvv2e w1 -> boltz w2 = boltz w1 ->
  group_count w2 (igroup s) = group_count w1 (igroup s) ->
  dof_compute w2 me s = dof_compute w1 me s.
Proof.
move=> H0 Hd Hm Hb Hc.
by rewrite !dof_compute_fields /nper H0 Hd Hm Hb Hc.
Qed.

(** *** The reduction does not depend on how the atoms are spread *)

Lemma group_sum_partition (w : world) (gb : N) (f : proc -> nat -> F)
    (a b : seq proc) (p : proc) (k : nat) :
  (k <= nlocal p)%N ->
  (forall i, f (split_lo k p) i = f p i) ->
  (forall i, f (split_hi k p) i = f p (k + i)%N) ->
  group_sum (with_procs w (b ++ split_hi k p :: split_lo k p :: a)) gb f
  = group_sum (with_procs w (a ++ p :: b)) gb f.
Proof.
move=> Hk Hlo Hhi; rewrite !group_sum_procs /= !big_cat !big_cons /=.
rewrite (rank_sum_split gb Hk Hlo Hhi).
set Sa := \sum_(q <- a) _; set Sb := \sum_(q <- b) _.
set Slo := rank_sum _ _ _; set Shi := rank_sum _ _ _.
ring.
Qed.

(** X1. The sums do not depend on how the atoms are spread over the ranks:
    cutting one rank in two at any atom and listing the ranks in another
    order leaves [scalar] and the six entries of [vector] after the
    reduction as they were; so, without a bias and with the same count of
    the group, [compute_vector] and [compute_scalar] return the same
    values. *)
Theorem reduction_partition (w : world) (me : nat) (s : state)
    (a b : seq proc) (p : proc) (k : nat) :
  let w1 := with_procs w (a ++ p :: b) in
  let w2 := with_procs w (b ++ split_hi k p :: split_lo k p :: a) in
  (k <= nlocal p)%N ->
  [/\ scalar_reduce w2 s = scalar_reduce w1 s,
      vector_reduce w2 s = vector_reduce w1 s
    & tempbias s = 0 ->
      group_count w2 (igroup s) = group_count w1 (igroup s) ->
      vector (compute_vector w2 s).1 = vector (compute_vector w1 s).1
      /\ scalar (compute_scalar w2 me s).1 = scalar (compute_scalar w1 me s).1].
Proof.
move=> w1 w2 Hk.
have Hs : scalar_reduce w2 s = scalar_reduce w1 s.
  rewrite !scalar_reduceE; apply: group_sum_partition => // i.
  by case: (split_hi_terms k p i).
have Hv : vector_reduce w2 s = vector_reduce w1 s.
  rewrite !vector_reduceE.
  by congr Vec6; apply: group_sum_partition => // i;
     case: (split_hi_terms k p i) => _ ->.
split=> // H0 Hc.
have [Hs1 Hv1 Hsw1 Hvw1] := nobias_worlds w1 me H0.
have [Hs2 Hv2 Hsw2 Hvw2] := nobias_worlds w2 me H0.
split; first by rewrite !compute_vectorE Hv1 Hv2 Hvw1 Hvw2 Hv.
rewrite !compute_scalarE Hs1 Hs2 Hs; congr (_ * _).
have := compute_scalar_state w2 me s; have := compute_scalar_state w1 me s.
rewrite Hsw1 Hsw2; case: ifP => _ [_ ->] [_ ->] //.
by rewrite (@nobias_dof_compute w1 w2).
Qed.

Lemma nobias_results (w : world) (me : nat) (s : state) :
  tempbias s = 0 ->
  vector (compute_vector w s).1 = scale6 (vector_reduce w s) (mvv2e w)
  /\ scalar (compute_scalar w me s).1
     = scalar_reduce w s
       * tfactor (if (dynamic s != 0) || (tempbias s == 2)
                  then dof_compute w me s else s).
Proof.
move=> H0; have [Hs Hv Hsw Hvw] := nobias_worlds w me H0.
rewrite compute_vectorE compute_scalarE Hs Hv Hvw; split=> //.
have := compute_scalar_state w me s; rewrite Hsw.
by case: ifP => _ [_ ->].
Qed.

Lemma group_sum_ranks (w : world) (gb : N) (f : proc -> nat -> F) :
  group_sum w gb f = \sum_(0 <= r < nprocs w) rank_sum gb f (rank w r).
Proof. by []. Qed.

(** *** Only the atoms of the group are read *)

Lemma rank_sum_same_group (gb : N) (f : proc -> nat -> F) (p q : proc) :
  same_group_atoms gb p q ->
  (forall i, v_at p i = v_at q i -> angmom_at p i = angmom_at q i ->
             rmass_at p i = rmass_at q i -> bonus_at p i = bonus_at q i ->
             f p i = f q i) ->
  rank_sum gb f p = rank_sum gb f q.
Proof.
move=> [Hn Hat] Hf; rewrite /rank_sum -Hn big_nat_cond [RHS]big_nat_cond.
apply: eq_big => i.
  by case Hi: (0 <= i < nlocal p)%N => //=; case: (Hat i Hi).
case/andP=> Hi Hg; have [_ /(_ Hg) [Hv Ha Hm Hb]] := Hat i Hi.
exact: Hf.
Qed.

Lemma same_reads_terms (p q : proc) (i : nat) :
  v_at p i = v_at q i -> angmom_at p i = angmom_at q i ->
  rmass_at p i = rmass_at q i -> bonus_at p i = bonus_at q i ->
  scalar_term p i = scalar_term q i /\ vector_term p i = vector_term q i.
Proof.
move=> Hv Ha Hm Hb.
rewrite /scalar_term /vector_term /ke_trans /ke_rot /trans_xy /trans_xz.
rewrite /trans_yz /rot_xy /rot_xz /rot_yz /omega_body /inertia.
by rewrite Hv Ha Hm Hb.
Qed.

(** X2. The evaluation reads the atoms of the group and nothing else: two
    worlds with as many ranks, whose ranks hold the same local atoms of the
    group (same masks, and for the atoms of the group the same velocity,
    angular momentum, mass and bonus record), give the same reduced sum and
    the same six entries; whatever differs in atoms outside the group, in
    atoms beyond [nlocal] or in unused bonus records has no effect. Without
    a bias [compute_vector] returns the same tensor in both. *)
Theorem group_locality (w1 w2 : world) (s : state) :
  nprocs w1 = nprocs w2 ->
  (forall r, (r < nprocs w1)%N ->
     same_group_atoms (groupbit s) (rank w1 r) (rank w2 r)) ->
  [/\ scalar_reduce w1 s = scalar_reduce w2 s,
      vector_reduce w1 s = vector_reduce w2 s
    & tempbias s = 0 -> mvv2e w1 = mvv2e w2 ->
      vector (compute_vector w1 s).1 = vector (compute_vector w2 s).1].
Proof.
move=> Hn Hr.
have Hsum (f : proc -> nat -> F) :
    (forall p q i, v_at p i = v_at q i -> angmom_at p i = angmom_at q i ->
       rmass_at p i = rmass_at q i -> bonus_at p i = bonus_at q i ->
       f p i = f q i) ->
    group_sum w1 (groupbit s) f = group_sum w2 (groupbit s) f.
  move=> Hf; rewrite !group_sum_ranks -Hn big_nat_cond [RHS]big_nat_cond.
  apply: eq_bigr => r; rewrite andbT => Hlt.
  by apply: rank_sum_same_group; [exact: Hr | exact: Hf].
have Hs : scalar_reduce w1 s = scalar_reduce w2 s.
  rewrite !scalar_reduceE; apply: Hsum => p q i Hv Ha Hm Hb.
  by case: (same_reads_terms Hv Ha Hm Hb).
have Hv : vector_reduce w1 s = vector_reduce w2 s.
  rewrite !vector_reduceE.
  by congr Vec6; apply: Hsum => p q i Hv Ha Hm Hb;
     case: (same_reads_terms Hv Ha Hm Hb) => _ ->.
split=> // H0 Hk.
have [-> _] := nobias_results w1 0%N H0.
by have [-> _] := nobias_results w2 0%N H0; rewrite Hv Hk.
Qed.

(** *** Signs and scaling *)

Lemma group_sum_cond (w : world) (gb : N) (f g : proc -> nat -> F) :
  (forall r i, (r < nprocs w)%N -> (i < nlocal (rank w r))%N ->
     in_group gb (rank w r) i -> f (rank w r) i = g (rank w r) i) ->
  group_sum w gb f = group_sum w gb g.
Proof.
move=> Hfg; rewrite !group_sum_ranks big_nat_cond [RHS]big_nat_cond.
apply: eq_bigr => r; rewrite andbT => Hr.
rewrite /rank_sum big_nat_cond [RHS]big_nat_cond.
by apply: eq_bigr => i /andP [Hi Hg]; apply: Hfg.
Qed.

Lemma group_sum_ge0 (w : world) (gb : N) (f : proc -> nat -> F) :
  (forall r i, (r < nprocs w)%N -> (i < nlocal (rank w r))%N ->
     in_group gb (rank w r) i -> 0 <= f (rank w r) i) ->
  0 <= group_sum w gb f.
Proof.
move=> Hf; rewrite group_sum_ranks big_nat_cond.
apply: sumr_ge0 => r; rewrite andbT => Hr.
rewrite /rank_sum big_nat_cond.
by apply: sumr_ge0 => i /andP [Hi Hg]; apply: Hf.
Qed.

Lemma terms_ge0 (p : proc) (i : nat) :
  0 <= rmass_at p i ->
  [/\ 0 <= scalar_term p i, 0 <= t0 (vector_term p i),
      0 <= t1 (vector_term p i) & 0 <= t2 (vector_term p i)].
Proof.
move=> Hm.
have Hsq (x y : F) : 0 <= rmass_at p i * (x ^+ 2 + y ^+ 2) / 5%:R.
  apply: divr_ge0; last by rewrite ler0n.
  by apply: mulr_ge0 => //; apply: addr_ge0; apply: sqr_ge0.
have H0 : 0 <= c0 (inertia p i) by exact: Hsq.
have H1 : 0 <= c1 (inertia p i) by exact: Hsq.
have H2 : 0 <= c2 (inertia p i) by exact: Hsq.
have Hq (a x : F) : 0 <= a -> 0 <= a * x ^+ 2.
  by move=> Ha; apply: mulr_ge0 => //; apply: sqr_ge0.
rewrite /scalar_term /ke_trans /ke_rot /=; split.
- apply: addr_ge0; last by do !apply: addr_ge0; apply: Hq.
  by apply: mulr_ge0 => //; do !apply: addr_ge0; apply: sqr_ge0.
- by apply: addr_ge0; apply: Hq.
- by apply: addr_ge0; apply: Hq.
- by apply: addr_ge0; apply: Hq.
Qed.

Lemma dof_compute_tfactor_ge0 (w : world) (me : nat) (s : state) :
  0 <= mvv2e w -> 0 <= boltz w -> 0 <= tfactor (dof_compute w me s).
Proof.
move=> Hm Hb; rewrite dof_compute_tfactor; case: ifP => // /ltW Hd.
by apply: divr_ge0 => //; apply: mulr_ge0.
Qed.

(** X3. The temperature is never negative. When, in the world the pass
    runs on, the atoms of the group have non-negative masses and nonzero
    moments of inertia, the stored [tfactor] is non-negative, [mvv2e] is
    non-negative and [boltz] is positive, the scalar [compute_scalar]
    returns is non-negative, and the [tfactor] it leaves is non-negative
    again; with such atoms and a non-negative [mvv2e] the diagonal entries
    [compute_vector] returns are non-negative. *)
Theorem temperature_nonnegative (w : world) (me : nat) (s : state) :
  let ws := scalar_remove_bias cls w s in
  let wv := vector_remove_bias cls w s in
  let rs := compute_scalar w me s in
  let rv := compute_vector w s in
  ((forall r i, (r < nprocs ws)%N -> (i < nlocal (rank ws r))%N ->
      in_group (groupbit s) (rank ws r) i ->
      0 <= rmass_at (rank ws r) i /\ nonzero_moments (rank ws r) i) ->
   0 <= tfactor s -> 0 <= mvv2e rs.2 -> 0 < boltz rs.2 ->
   0 <= scalar rs.1 /\ 0 <= tfactor rs.1)
  /\ ((forall r i, (r < nprocs wv)%N -> (i < nlocal (rank wv r))%N ->
         in_group (groupbit s) (rank wv r) i ->
         0 <= rmass_at (rank wv r) i /\ nonzero_moments (rank wv r) i) ->
      0 <= mvv2e rv.2 ->
      [/\ 0 <= t0 (vector rv.1), 0 <= t1 (vector rv.1)
        & 0 <= t2 (vector rv.1)]).
Proof.
move=> ws wv rs rv; split.
- move=> Hm Htf Hk /ltW Hb.
  have Htf' : 0 <= tfactor rs.1.
    have := compute_scalar_state w me s; rewrite -/rs.
    by case: ifP => _ [_ ->] //; apply: dof_compute_tfactor_ge0.
  split=> //; rewrite /rs compute_scalarE; apply: mulr_ge0 => //.
  rewrite scalar_reduceE; apply: group_sum_ge0 => r i Hr Hi Hg.
  by case: (terms_ge0 (proj1 (Hm r i Hr Hi Hg))).
- move=> Hm Hk; rewrite /rv compute_vectorE scale6_t0 scale6_t1 scale6_t2.
  rewrite vector_reduceE /=.
  by split; apply: mulr_ge0 => //; apply: group_sum_ge0 => r i Hr Hi Hg;
     case: (terms_ge0 (proj1 (Hm r i Hr Hi Hg))).
Qed.

Lemma scale6_Vec6 (a b c d e f k : F) :
  scale6 (Vec6 a b c d e f) k
  = Vec6 (a * k) (b * k) (c * k) (d * k) (e * k) (f * k).
Proof. by []. Qed.

Lemma scale_proc_reads (k : F) (p : proc) (i : nat) :
  [/\ v_at (scale_proc k p) i = scale_vec3 k (v_at p i),
      angmom_at (scale_proc k p) i = scale_vec3 k (angmom_at p i),
      rmass_at (scale_proc k p) i = rmass_at p i
    & bonus_at (scale_proc k p) i = bonus_at p i].
Proof.
have Hnth (l : seq (vec3 F)) :
    nth vec3_0 [seq scale_vec3 k x | x <- l] i = scale_vec3 k (nth vec3_0 l i).
  case: (ltnP i (size l)) => Hi; first exact: nth_map.
  by rewrite !nth_default ?size_map // /scale_vec3 /= !mulr0.
by split=> //; rewrite /v_at /angmom_at /= Hnth.
Qed.

Lemma scale_proc_terms (k : F) (p : proc) (i : nat) :
  scalar_term (scale_proc k p) i = k ^+ 2 * scalar_term p i
  /\ vector_term (scale_proc k p) i = scale6 (vector_term p i) (k ^+ 2).
Proof.
have [Hv Ha Hm Hb] := scale_proc_reads k p i.
rewrite /scalar_term /vector_term /scale6 /ke_trans /ke_rot /trans_xy.
rewrite /trans_xz /trans_yz /rot_xy /rot_xz /rot_yz /omega_body /inertia.
rewrite Hv Ha Hm Hb /=.
by split; [|apply: vec6_eq => /=]; ring.
Qed.

Lemma group_sum_scaled (w : world) (gb : N) (k : F)
    (f : proc -> nat -> F) :
  (forall p i, f (scale_proc k p) i = k ^+ 2 * f p i) ->
  group_sum (with_procs w [seq scale_proc k p | p <- procs w]) gb f
  = k ^+ 2 * group_sum w gb f.
Proof.
move=> Hf; rewrite !group_sum_procs /= big_map big_distrr /=.
apply: eq_bigr => p _; rewrite /rank_sum big_distrr /=.
by apply: eq_bigr => i _.
Qed.

(** X4. The sums are quadratic in the velocities: multiplying the velocity
    and the angular momentum of every atom by [k] multiplies the reduced
    sum and the six entries by [k]^2; without a bias the tensor
    [compute_vector] returns is multiplied by [k]^2, and so is the scalar
    [compute_scalar] returns when the degrees of freedom are not
    recomputed. *)
Theorem velocity_scaling (w : world) (me : nat) (s : state) (k : F) :
  let w' := with_procs w [seq scale_proc k p | p <- procs w] in
  [/\ scalar_reduce w' s = k ^+ 2 * scalar_reduce w s,
      vector_reduce w' s = scale6 (vector_reduce w s) (k ^+ 2),
      tempbias s = 0 ->
      vector (compute_vector w' s).1
      = scale6 (vector (compute_vector w s).1) (k ^+ 2)
    & tempbias s = 0 -> dynamic s = 0 ->
      scalar (compute_scalar w' me s).1
      = k ^+ 2 * scalar (compute_scalar w me s).1].
Proof.
move=> w'.
have Hs : scalar_reduce w' s = k ^+ 2 * scalar_reduce w s.
  rewrite !scalar_reduceE; apply: group_sum_scaled => p i.
  by case: (scale_proc_terms k p i).
have Hv : vector_reduce w' s = scale6 (vector_reduce w s) (k ^+ 2).
  rewrite !vector_reduceE scale6_Vec6.
  by congr Vec6; rewrite mulrC; apply: group_sum_scaled => p i;
     case: (scale_proc_terms k p i) => _ ->;
     rewrite ?scale6_t0 ?scale6_t1 ?scale6_t2 ?scale6_t3 ?scale6_t4
             ?scale6_t5 mulrC.
split=> //.
- move=> H0; have [-> _] := nobias_results w' me H0.
  have [-> _] := nobias_results w me H0.
  by rewrite Hv; apply: vec6_eq => /=; ring.
- move=> H0 Hd; have [_ ->] := nobias_results w' me H0.
  have [_ ->] := nobias_results w me H0.
  by rewrite Hs Hd H0 /= mulrA.
Qed.

(** X5. With zero angular momentum on every atom of the group, and
    nonzero moments of inertia (the code divides by them), the rotational
    part vanishes: the reduced sum is the sum of m (vx^2+vy^2+vz^2) and
    the six entries are the sums of m vx^2, m vy^2, m vz^2, m vx vy,
    m vx vz, m vy vz, whatever the orientations. *)
Theorem zero_angmom_translational (w : world) (s : state) :
  (forall r i, (r < nprocs w)%N -> (i < nlocal (rank w r))%N ->
     in_group (groupbit s) (rank w r) i ->
     angmom_at (rank w r) i = vec3_0 /\ nonzero_moments (rank w r) i) ->
  scalar_reduce w s = group_sum w (groupbit s) (fun p i => ke_trans p i)
  /\ vector_reduce w s
     = Vec6 (group_sum w (groupbit s)
               (fun p i => rmass_at p i * c0 (v_at p i) ^+ 2))
            (group_sum w (groupbit s)
               (fun p i => rmass_at p i * c1 (v_at p i) ^+ 2))
            (group_sum w (groupbit s)
               (fun p i => rmass_at p i * c2 (v_at p i) ^+ 2))
            (group_sum w (groupbit s) (fun p i => trans_xy p i))
            (group_sum w (groupbit s) (fun p i => trans_xz p i))
            (group_sum w (groupbit s) (fun p i => trans_yz p i)).
Proof.
move=> Hz.
have Hw r i : (r < nprocs w)%N -> (i < nlocal (rank w r))%N ->
    in_group (groupbit s) (rank w r) i ->
    omega_body (rank w r) i = vec3_0.
  move=> Hr Hi Hg; rewrite /omega_body (proj1 (Hz r i Hr Hi Hg)) /vec3_0 /=.
  by rewrite !mulr0 !addr0 !mul0r.
split.
- rewrite scalar_reduceE; apply: group_sum_cond => r i Hr Hi Hg.
  rewrite /ke_rot (Hw r i Hr Hi Hg) /=; ring.
- rewrite vector_reduceE.
  by congr Vec6; apply: group_sum_cond => r i Hr Hi Hg;
     rewrite /vector_term /rot_xy /rot_xz /rot_yz (Hw r i Hr Hi Hg) /=; ring.
Qed.

(** X6. Where the three moments of an atom are nonzero, its rotational
    energy is the body-frame angular momentum squared over the moments,
    lx^2/Ix + ly^2/Iy + lz^2/Iz; when this holds for every atom of the
    group, the reduced sum is the sum of the translational terms and of
    these quotients. *)
Theorem rotational_energy_momentum (w : world) (s : state) :
  (forall r i, (r < nprocs w)%N -> (i < nlocal (rank w r))%N ->
     in_group (groupbit s) (rank w r) i ->
     [/\ c0 (inertia (rank w r) i) != 0, c1 (inertia (rank w r) i) != 0
       & c2 (inertia (rank w r) i) != 0]) ->
  scalar_reduce w s
  = group_sum w (groupbit s) (fun p i =>
      ke_trans p i
      + (c0 (angmom_body p i) ^+ 2 / c0 (inertia p i)
         + c1 (angmom_body p i) ^+ 2 / c1 (inertia p i)
         + c2 (angmom_body p i) ^+ 2 / c2 (inertia p i))).
Proof.
move=> Hnz; rewrite scalar_reduceE; apply: group_sum_cond => r i Hr Hi Hg.
have [H0 H1 H2] := Hnz r i Hr Hi Hg.
rewrite /ke_rot /omega_body -/(angmom_body (rank w r) i).
move: H0 H1 H2; set I0 := c0 (inertia _ _); set I1 := c1 (inertia _ _).
set I2 := c2 (inertia _ _); set l := angmom_body _ _ => H0 H1 H2 /=.
by congr (_ + _); field; rewrite H0 H1 H2.
Qed.

(** *** The empty group *)

Lemma group_sum0 (w : world) (gb : N) (f : proc -> nat -> F) :
  (forall r i, (r < nprocs w)%N -> (i < nlocal (rank w r))%N ->
     in_group gb (rank w r) i = false) ->
  group_sum w gb f = 0.
Proof.
move=> He; rewrite (@group_sum_cond w gb f (fun _ _ => 0)).
  by move=> r i Hr Hi; rewrite He.
rewrite group_sum_ranks big1 // => r _.
by rewrite /rank_sum big1.
Qed.

(** X7. When no rank owns an atom of the group, [init] finds no point
    particle, the reduced sum and the six entries are zero, and without a
    bias [compute_scalar] returns 0 and [compute_vector] the zero tensor,
    whatever the degrees of freedom and the atoms outside the group. *)
Theorem empty_group_zero (w : world) (me : nat) (s : state) :
  (forall r i, (r < nprocs w)%N -> (i < nlocal (rank w r))%N ->
     in_group (groupbit s) (rank w r) i = false) ->
  [/\ has_point_particle w (groupbit s) = false,
      scalar_reduce w s = 0, vector_reduce w s = vec6_0
    & tempbias s = 0 ->
      scalar (compute_scalar w me s).1 = 0
      /\ vector (compute_vector w s).1 = vec6_0].
Proof.
move=> He.
have Hs : scalar_reduce w s = 0 by rewrite scalar_reduceE group_sum0.
have Hv : vector_reduce w s = vec6_0.
  by rewrite vector_reduceE /vec6_0; congr Vec6; apply: group_sum0.
split=> //.
- apply/negbTE/(has_nthP proc_0) => [[r Hr]] /hasP [i].
  by rewrite mem_iota add0n /= => Hi; rewrite (He r i Hr Hi).
- move=> H0; have [-> ->] := nobias_results w me H0.
  by rewrite Hs Hv mul0r /scale6 /vec6_0 /= !mul0r.
Qed.

(** *** The life of an initialised compute *)

Lemma find_compute_found (w : world) (id : string) :
  (find_compute w id < 0) = false ->
  (`|find_compute w id| < size (computes w))%N
  /\ c_id (compute_at w `|find_compute w id|) = id.
Proof.
rewrite /find_compute; case: ifP => // Hlt _; split=> //.
rewrite /compute_at /=; move: Hlt; rewrite -has_find => /(nth_find compute_0).
by move/String.eqb_eq.
Qed.

(** The evaluation methods assign none of the configuration members. *)
Lemma evolves_config (s1 s : state) :
  evolves s1 s ->
  [/\ tempbias s = tempbias s1, tbias s = tbias s1, id_bias s = id_bias s1,
      groupbit s = groupbit s1 & dynamic s = dynamic s1].
Proof.
elim=> [|w me s2 _ [H1 H2 H3 H4 H5]|w s2 _ [H1 H2 H3 H4 H5]
        |w me s2 _ [H1 H2 H3 H4 H5]] //.
- rewrite /compute_scalar /=; case: ifP => _ //.
  by rewrite dof_compute_fields.
- by rewrite dof_compute_fields.
Qed.


(** X8. After a successful [init], through any number of evaluations: the
    group, [dynamic], [extra_dof] and the bias ID are those given to
    [init], and no atom of the group was a point particle. Without a bias
    [tempbias] stays 0 and [tbias] is never assigned. With a bias, [tbias]
    is not null: it points to an entry that exists in the [modify->compute]
    [init] ran on, carries the configured ID, computes a temperature and a
    velocity bias and has the group of this compute; and [tempbias] is 2
    for the style temp/region and 1 otherwise. *)
Theorem init_lifecycle (w0 : world) (me0 : nat) (s0 s1 : state)
    (w1 : world) (s : state) :
  init w0 me0 s0 = Ok (s1, w1) -> evolves s1 s ->
  let h := `|find_compute w0 (id_bias s0)|%N in
  [/\ [/\ igroup s = igroup s0, groupbit s = groupbit s0,
          dynamic s = dynamic s0, extra_dof s = extra_dof s0
        & id_bias s = id_bias s0],
      has_point_particle w0 (groupbit s0) = false
    & if tempbias s0 == 0 then tempbias s = 0 /\ tbias s = tbias s0
      else [/\ tbias s = Some h, (h < size (computes w0))%N,
               c_id (compute_at w0 h) = id_bias s0,
               tempbias s
               = (if String.eqb (c_style (compute_at w1 h)) "temp/region"
                  then 2 else 1)
             & [/\ c_tempflag (compute_at w0 h) != 0,
                   c_tempbias (compute_at w0 h) != 0
                 & c_igroup (compute_at w0 h) = igroup s0]]].
Proof.
move=> Hinit Hev h.
have [Hw1 Hs1] := init_ok_inv Hinit.
have [Hf He Hg] := evolves_frozen Hev.
have [Htb Hp Hid Hgb Hdy] := evolves_config Hev.
have Hfat : is_fatal (init w0 me0 s0) = false by rewrite Hinit.
move: Hfat; rewrite init_fatalE => /norP [/negbTE Hpp Hbias].
have Hs1c : [/\ igroup s1 = igroup s0, groupbit s1 = groupbit s0,
                dynamic s1 = dynamic s0, extra_dof s1 = extra_dof s0
              & id_bias s1 = id_bias s0].
  rewrite Hs1 dof_compute_fields /init_state /=.
  by case: ifP => // _; case: ifP.
case: Hs1c => G1 G2 G3 G4 G5.
split; first by rewrite Hg He Hgb Hdy Hid.
  by [].
rewrite Htb Hp Hs1 dof_compute_fields /init_state /= -Hw1.
case Hb: (tempbias s0 == 0) Hbias => /=; first by rewrite (eqP Hb).
rewrite /bias_unresolved /bias_lacks_flag /bias_group_mismatch /the_bias.
rewrite -/h !negb_or => /and4P [/negbTE Hu /andP [Ht1 Ht2] /negbNE /eqP Hi _].
have [Hlt Hcid] := find_compute_found Hu.
by split=> //; case: String.eqb.
Qed.

(** X9. A compute of this class offered as the bias of another one, when
    the virtual call of line 101 runs the [init] of this class on it.
    Built with three arguments it has no bias of its own, and the [init]
    of the other compute refuses it ("does not calculate a velocity
    bias"). Built with four arguments it passes the checks, and its own
    [init] runs: when its own bias ID is not found, the [init] of the
    other compute stops with that error ("Could not find compute ID");
    otherwise the other [init] stops or returns as the [init] of this
    bias does. *)
Theorem asphere_as_bias (base : state) (arg : seq string) (avec : bool)
    (fl : compute_flags) (sb : state) (id style : string)
    (w : world) (me : nat) (s : state) :
  construct base arg avec = Ok (fl, sb) ->
  has_point_particle w (groupbit s) = false ->
  tempbias s != 0 ->
  bias_unresolved w s = false ->
  the_bias w s = registered id style fl sb ->
  igroup sb = igroup s -> groupbit sb = groupbit s ->
  (forall msg : string,
     init w me sb = Fatal msg ->
     bias_init cls `|find_compute w (id_bias s)|%N w = Fatal msg) ->
  init w me s
  = if size arg == 3%N
    then Fatal "Bias compute does not calculate a velocity bias"
    else if bias_unresolved w sb
    then Fatal "Could not find compute ID for temperature bias"
    else if bias_init cls `|find_compute w (id_bias s)|%N w is Fatal msg
    then Fatal msg
    else Ok (dof_compute (init_world cls w s) me (init_state cls w s),
             init_world cls w s).
Proof.
rewrite /construct; case Hn: (_ && _) => //; case: avec => // [[<- <-]].
move=> Hpp Hb Hu Hreg Hg Hgb Hdisp.
have E : (size arg == 3%N) = ~~ (size arg == 4%N).
  move: Hn; case E4: (size arg == 4%N); first by rewrite (eqP E4).
  by rewrite andbT => /negbFE ->.
rewrite E; case H4: (size arg == 4%N) Hreg Hg Hgb Hdisp => /= Hreg Hg Hgb Hdisp.
- have Hl : bias_lacks_flag w s = false by rewrite /bias_lacks_flag Hreg.
  have Hm : bias_group_mismatch w s = false.
    by rewrite /bias_group_mismatch Hreg /= Hg eqxx.
  rewrite (init_past_checks me Hpp Hb Hu Hl Hm).
  case Hub: (bias_unresolved w _) => //.
  rewrite (Hdisp "Could not find compute ID for temperature bias"%string) //.
  rewrite /init /has_point_particle in Hpp *.
  rewrite (eq_has (point_particleE _)) Hgb Hpp /init_bias /=.
  by move: Hub; rewrite /bias_unresolved /= => ->.
- rewrite /init /has_point_particle in Hpp *.
  rewrite (eq_has (point_particleE (groupbit s))) Hpp /init_bias Hb.
  move: Hu; rewrite /bias_unresolved => -> /=.
  by move: Hreg; rewrite /the_bias => -> /=.
Qed.

(** X10. One more fix lowers the degrees of freedom by what it reports:
    without a bias, when [init] succeeds in a world it also succeeds in
    that world with a fix appended, the stored sum grows by the answer of
    the new fix and [dof] is lower by it (strictly when it is positive),
    the count of the group being the same. *)
Theorem extra_fix_lowers_dof (w : world) (me : nat) (s s1 : state)
    (w1 : world) (f : int -> int) :
  let w' := with_fixes w (rcons (fixes w) f) in
  tempbias s = 0 ->
  group_count w' (igroup s) = group_count w (igroup s) ->
  init w me s = Ok (s1, w1) ->
  exists s1' : state,
    [/\ init w' me s = Ok (s1', w'),
        fix_dof s1' = fix_dof s1 + f (igroup s),
        dof s1' = dof s1 - (f (igroup s))%:~R
      & 0 < f (igroup s) -> dof s1' < dof s1].
Proof.
move=> w' H0 Hc Hinit.
have [Hw1 Hs1] := init_ok_inv Hinit.
have Hf : is_fatal (init w me s) = false by rewrite Hinit.
have Hf' : is_fatal (init w' me s) = false.
  by move: Hf; rewrite !init_fatalE H0.
have Hiw : init_world cls w s = w by rewrite /init_world H0.
have Hiw' : init_world cls w' s = w' by rewrite /init_world H0.
exists (dof_compute w' me (init_state cls w' s)).
have Hsum : sum_fix_dof w' (igroup s) = sum_fix_dof w (igroup s) + f (igroup s).
  by rewrite !sum_fix_dofE /= -cats1 big_cat big_seq1.
have Hfix : fix_dof (dof_compute w' me (init_state cls w' s))
            = fix_dof s1 + f (igroup s).
  rewrite Hs1 Hw1 !dof_compute_fields /init_state Hiw Hiw' H0 /=.
  by rewrite Hsum.
have Hdof : dof (dof_compute w' me (init_state cls w' s))
            = dof s1 - (f (igroup s))%:~R.
  rewrite Hs1 Hw1 !dof_compute_fields /init_state Hiw Hiw' H0 /= Hc Hsum.
  rewrite /nper /= H0 /= !rmorphD /=; ring.
split=> //; first by rewrite (init_okE Hf') Hiw'.
by move=> Hpos; rewrite Hdof ltrBlDr ltrDl ltr0z.
Qed.

(** What [dof_compute] stores depends only on the configuration members of
    the state. *)
Lemma dof_compute_same_config (w : world) (me : nat) (s s' : state) :
  igroup s' = igroup s -> tempbias s' = tempbias s -> tbias s' = tbias s ->
  extra_dof s' = extra_dof s -> fix_dof s' = fix_dof s ->
  groupbit s' = groupbit s ->
  dof_compute w me s'
  = set_dof s' (dof (dof_compute w me s)) (tfactor (dof_compute w me s)).
Proof.
move=> Hi Ht Hp He Hf Hg; rewrite !dof_compute_fields /dof_removed /=.
by rewrite Hi Ht Hp He Hf Hg.
Qed.

Lemma nobias_compute_scalar (w : world) (me : nat) (s : state) :
  tempbias s = 0 ->
  compute_scalar w me s
  = (set_scalar
       (if dynamic s != 0
        then dof_compute w me (set_invoked_scalar s (ntimestep w))
        else set_invoked_scalar s (ntimestep w))
       (scalar_reduce w s
        * tfactor (if dynamic s != 0
                   then dof_compute w me (set_invoked_scalar s (ntimestep w))
                   else set_invoked_scalar s (ntimestep w))),
     w).
Proof.
move=> H0; rewrite /compute_scalar /restore_after_pass /scalar_remove_bias.
by rewrite [tempbias _]/= H0 /= orbF.
Qed.

Lemma nobias_compute_vector (w : world) (s : state) :
  tempbias s = 0 ->
  compute_vector w s
  = (set_vector (set_invoked_vector s (ntimestep w))
                (scale6 (vector_reduce w s) (mvv2e w)),
     w).
Proof.
move=> H0; rewrite /compute_vector /restore_after_pass /vector_remove_bias.
by rewrite [tempbias _]/= H0.
Qed.

(** X11. Without a bias an evaluation repeated in the same world changes
    nothing more: [compute_scalar] and [compute_vector] run a second time
    return the state and the world of the first run, and the two methods
    can be called in either order. *)
Theorem nobias_reevaluation (w : world) (me : nat) (s : state) :
  tempbias s = 0 ->
  [/\ compute_scalar w me (compute_scalar w me s).1 = compute_scalar w me s,
      compute_vector w (compute_vector w s).1 = compute_vector w s
    & compute_vector w (compute_scalar w me s).1
      = ((compute_scalar w me (compute_vector w s).1).1, w)].
Proof.
have [D [T Hdc]] : exists D T, forall s',
    igroup s' = igroup s -> tempbias s' = tempbias s -> tbias s' = tbias s ->
    extra_dof s' = extra_dof s -> fix_dof s' = fix_dof s ->
    groupbit s' = groupbit s -> dof_compute w me s' = set_dof s' D T.
  exists (dof (dof_compute w me s)), (tfactor (dof_compute w me s)) => s'.
  exact: dof_compute_same_config.
move=> H0.
rewrite (nobias_compute_scalar w me H0) (nobias_compute_vector w H0).
rewrite [(_, _).1]/fst.
case Hdy: (dynamic s != 0).
- rewrite (Hdc (set_invoked_scalar s _)) //.
  rewrite !nobias_compute_scalar ?nobias_compute_vector //.
  by rewrite [dynamic _]/= Hdy !Hdc.
- rewrite !nobias_compute_scalar ?nobias_compute_vector //.
  by rewrite [dynamic _]/= Hdy.
Qed.

End Properties.

(** ** Examples on the concrete configurations *)

(** C1 (as stated) fails. One atom at rest with moments (13,10,5) and
    angular velocity (1,2,3), after [init]: [compute_vector] returns
    30 = Iy wx wz in the entry xz and 30 = Iz wy wz in the entry yz, where
    the pairing Iy wy wz and Iz wz wx would give 60 and 15. *)
Lemma vector_cross_terms_counterexample :
  let s := (ex_init ex_world1 (ex_state 0 0)).1 in
  let x := vector (compute_vector ex_class ex_world1 s).1 in
  let spec_xz :=
    group_sum ex_world1 N.one (fun p i => trans_xz p i + spec_rot_xz p i)
    * mvv2e ex_world1 in
  let spec_yz :=
    group_sum ex_world1 N.one (fun p i => trans_yz p i + spec_rot_yz p i)
    * mvv2e ex_world1 in
  [/\ t4 x = 30%:R /\ spec_xz = 60%:R,
      t5 x = 30%:R /\ spec_yz = 15%:R,
      t4 x <> spec_xz & t5 x <> spec_yz].
Proof.
rewrite /group_sum !unlock.
by split; vm_compute.
Qed.

(** C4 on a configuration: one atom, 3 dimensions, [extra_dof] 7, so that
    [dof] is 6 - 7 = -1. [tfactor] is 0, and the scalar evaluated on the
    moving atoms of [ex_world2] is 0. *)
Lemma nonpositive_dof_zero_witness :
  let s := dof_compute ex_count ex_class ex_world1 0 (ex_state 0 7) in
  [/\ dof s = -1, tfactor s = 0,
      tfactor (compute_scalar ex_count ex_class ex_world2 0 s).1 = 0
    & scalar (compute_scalar ex_count ex_class ex_world2 0 s).1 = 0].
Proof.
have [H1 H2] :=
  @nonpositive_dof_zero rat unit ex_count ex_class ex_world1 0%N
    (ex_state 0 7) _ ex_world2 0%N evolves_refl.
have [|H3 H4] := H2; first by vm_compute.
by split=> //; apply: H1; vm_compute.
Defined.

(** C5 (as stated) fails. One atom, [dynamic] set, [extra_dof] 7, after
    [init]: [dof] is recomputed to 6 - 7 = -1, the reduced sum is 98 and
    [compute_scalar] returns 0, not 98 * mvv2e / (dof * boltz) = -98. *)
Lemma scalar_scaling_counterexample :
  let s := (ex_init ex_world1 (ex_state 1 7)).1 in
  let r := compute_scalar ex_count ex_class ex_world1 0 s in
  let sum := scalar_reduce (scalar_remove_bias ex_class ex_world1 s) s in
  [/\ dof r.1 = -1, sum = 98%:R, scalar r.1 = 0,
      sum * (mvv2e r.2 / (dof r.1 * boltz r.2)) = - 98%:R
    & scalar r.1 <> sum * (mvv2e r.2 / (dof r.1 * boltz r.2))].
Proof. by split; vm_compute. Qed.

(** C8 (as stated) fails. The bias "plain" computes a temperature but no
    velocity bias, is found and has the group of this compute, and every
    atom of the group has an ellipsoid record: none of the conditions of
    the claim holds, and [init] stops the run. *)
Lemma init_fatal_counterexample :
  let s := ex_state_bias "plain" in
  let claimed :=
    has_point_particle ex_world1 (groupbit s)
    || (tempbias s != 0)
       && [|| bias_unresolved ex_world1 s, bias_neither ex_world1 s
            | bias_group_mismatch ex_world1 s] in
  [/\ init ex_count ex_class ex_world1 0 s
      = Fatal "Bias compute does not calculate a velocity bias",
      claimed = false
    & is_fatal (init ex_count ex_class ex_world1 0 s) <> claimed].
Proof. by split; vm_compute. Qed.

(** C9 on a configuration: [init] in a world of two atoms of the group and
    two fixes (3 and 4 degrees of freedom) stores 7. After an evaluation,
    in the world without fixes, [dof_compute] and the dynamic
    [compute_scalar] still find 12 - 7 = 5. *)
Lemma fix_dof_frozen_witness :
  let s1 := (ex_init ex_world2 (ex_state 1 0)).1 in
  let s := (compute_vector ex_class ex_world1 s1).1 in
  [/\ fix_dof s = 7%:R,
      dof (dof_compute ex_count ex_class ex_world2_nofix 0 s) = 5%:R
    & dof (compute_scalar ex_count ex_class ex_world2_nofix 0 s).1 = 5%:R].
Proof.
move=> s1 s.
have Hinit : init ex_count ex_class ex_world2 0 (ex_state 1 0)
             = Ok (s1, (ex_init ex_world2 (ex_state 1 0)).2) by vm_compute.
have Hev : evolves ex_count ex_class s1 s.
  exact: evolves_vector evolves_refl.
have [_ H2 H3 H4] := fix_dof_frozen ex_world2_nofix 0 Hinit Hev.
split.
- by rewrite H2 unlock; vm_compute.
- by rewrite H3 /dof_unconstrained /dof_removed !unlock; vm_compute.
- by rewrite H4 /dof_unconstrained /dof_removed !unlock; vm_compute.
Defined.

(** C8 on a configuration: the bias "inner" is a compute of this class
    whose own bias "flow" is not registered. Every atom has an ellipsoid
    record, "inner" is found, has both flags and the group of this compute:
    the [init] of "inner" stops the run at line 93, and so does [init],
    with that message. *)
Lemma init_fatal_exactly_witness :
  let s := ex_state_bias "inner" in
  let cls := ex_class_nested (ex_built ex_args4).2 in
  let w := ex_world_inner ex_args4 in
  [/\ has_point_particle w (groupbit s) = false,
      [|| bias_unresolved w s, bias_lacks_flag w s | bias_group_mismatch w s]
      = false,
      bias_init_fails cls w s = true
    & init ex_count cls w 0 s
      = Fatal "Could not find compute ID for temperature bias"].
Proof.
move=> s cls w.
have [_ _ H] := @init_fatal_exactly rat unit ex_count cls w 0%N s.
split; [vm_compute; reflexivity | vm_compute; reflexivity
       | vm_compute; reflexivity | apply: H; vm_compute; reflexivity].
Defined.


Lemma ex_shift_inverse (w : world rat unit) :
  velocities (ex_shift 1 (ex_shift (-1) w)) = velocities w.
Proof.
rewrite /velocities /ex_shift /= -!map_comp.
apply: eq_map => p /=; rewrite -map_comp -[RHS]map_id.
by apply: eq_map => x /=; rewrite subrK; case: x.
Qed.

(** C7 on a configuration: two ranks, no fix, the region bias "flow"
    resolved by [init], which takes (1,0,0) off every velocity. Both
    evaluations return the velocities they found, and the scalar is the sum
    over the stripped velocities (108 + 118, where the velocities found
    would give 123 + 143) times [tfactor], 1/6. *)
Lemma bias_brackets_accumulation_witness :
  let s := (ex_init ex_world2_nofix (ex_state_bias "flow")).1 in
  let rs := compute_scalar ex_count ex_class ex_world2_nofix 0 s in
  let rv := compute_vector ex_class ex_world2_nofix s in
  [/\ velocities rs.2 = velocities ex_world2_nofix,
      velocities rv.2 = velocities ex_world2_nofix,
      scalar_reduce (ex_shift (-1) ex_world2_nofix) s = 226%:R,
      scalar_reduce ex_world2_nofix s = 266%:R
    & scalar rs.1 = 226%:R / 6%:R].
Proof.
move=> s rs rv.
have := @bias_brackets_accumulation rat unit ex_count ex_class
          ex_world2_nofix 0%N s.
have -> : (tempbias s != 0) = true by vm_compute.
case=> H1 H2 _ _ /(_ ex_shift_inverse) [H3 H4]; split.
- by rewrite H3; vm_compute.
- by rewrite H4; vm_compute.
- by vm_compute.
- by vm_compute.
- by rewrite H2; vm_compute.
Defined.

(** ** Further examples *)

(** Discharges a statement about every atom of every rank of a concrete
    world: the ranks and atoms in range one by one, the others by the
    bounds. *)
Ltac by_atoms :=
  let r := fresh "r" in let i := fresh "i" in
  move=> r i;
  do 3?[case: r => [|r]]; do 4?[case: i => [|i]]; by vm_compute.

(** The same for two facts about every atom of the group. *)
Ltac by_atoms_and :=
  let r := fresh "r" in let i := fresh "i" in
  let Hr := fresh "Hr" in let Hi := fresh "Hi" in let Hg := fresh "Hg" in
  move=> r i;
  do 3?[case: r => [|r]]; do 4?[case: i => [|i]]; vm_compute;
  move=> Hr Hi Hg;
  first [discriminate Hr | discriminate Hi | discriminate Hg
        | split; reflexivity].

(** X1 on a configuration: the two ranks of [ex_world2], against three
    ranks in another order, the mixed rank cut in two at atom 1. *)
Lemma reduction_partition_witness :
  let s := (ex_init ex_world2 (ex_state 1 0)).1 in
  let w1 := with_procs ex_world2 ([:: ex_atom 3%:R] ++ ex_mixed :: [::]) in
  let w2 := with_procs ex_world2
              ([::] ++ split_hi 1 ex_mixed :: split_lo 1 ex_mixed
                       :: [:: ex_atom 3%:R]) in
  [/\ scalar_reduce w2 s = scalar_reduce w1 s,
      vector_reduce w2 s = vector_reduce w1 s,
      vector (compute_vector ex_class w2 s).1
      = vector (compute_vector ex_class w1 s).1
    & scalar (compute_scalar ex_count ex_class w2 0 s).1
      = scalar (compute_scalar ex_count ex_class w1 0 s).1].
Proof.
move=> s w1 w2.
have [H1 H2 H3] :=
  @reduction_partition rat unit ex_count ex_class ex_world2 0%N s
    [:: ex_atom 3%:R] [::] ex_mixed 1%N isT.
have [H4 H5] : vector (compute_vector ex_class w2 s).1
               = vector (compute_vector ex_class w1 s).1
               /\ scalar (compute_scalar ex_count ex_class w2 0 s).1
                  = scalar (compute_scalar ex_count ex_class w1 0 s).1.
  by apply: H3; vm_compute.
split; [exact: H1 | exact: H2 | exact: H4 | exact: H5].
Defined.

(** X2 on a configuration: [ex_world2_other] differs from
    [ex_world2_nofix] in the point particle outside the group, in an atom
    beyond [nlocal] and in an unused bonus record. *)
Lemma group_locality_witness :
  let s := (ex_init ex_world2_nofix (ex_state 0 0)).1 in
  [/\ scalar_reduce ex_world2_nofix s = scalar_reduce ex_world2_other s,
      vector_reduce ex_world2_nofix s = vector_reduce ex_world2_other s
    & vector (compute_vector ex_class ex_world2_nofix s).1
      = vector (compute_vector ex_class ex_world2_other s).1].
Proof.
move=> s.
have Hsame r : (r < nprocs ex_world2_nofix)%N ->
    same_group_atoms (groupbit s) (rank ex_world2_nofix r)
                     (rank ex_world2_other r).
  do 2?[case: r => [|r]] => // _; split=> //;
    by do 2?[case=> [|]] => //; split; vm_compute.
have [H1 H2 H3] :=
  @group_locality rat unit ex_count ex_class ex_world2_nofix ex_world2_other s
    (erefl _) Hsame.
split; [exact: H1 | exact: H2 | by apply: H3; vm_compute].
Defined.

(** X3 on a configuration: two atoms of mass 5 and moments (13,10,5),
    [tfactor] 1/12. *)
Lemma temperature_nonnegative_witness :
  let s := (ex_init ex_world2_nofix (ex_state 0 0)).1 in
  let rs := compute_scalar ex_count ex_class ex_world2_nofix 0 s in
  let rv := compute_vector ex_class ex_world2_nofix s in
  [/\ 0 <= scalar rs.1, 0 <= tfactor rs.1, 0 <= t0 (vector rv.1),
      0 <= t1 (vector rv.1) & 0 <= t2 (vector rv.1)].
Proof.
move=> s rs rv.
have [H1 H2] :=
  @temperature_nonnegative rat unit ex_count ex_class ex_world2_nofix 0%N s.
have [H3 H4] : 0 <= scalar rs.1 /\ 0 <= tfactor rs.1.
  by apply: H1; [by_atoms_and | vm_compute ..].
have [H5 H6 H7] : [/\ 0 <= t0 (vector rv.1), 0 <= t1 (vector rv.1)
                    & 0 <= t2 (vector rv.1)].
  by apply: H2; [by_atoms_and | vm_compute].
split; [exact: H3 | exact: H4 | exact: H5 | exact: H6 | exact: H7].
Defined.

(** X4 on a configuration: all velocities and angular momenta of
    [ex_world2_nofix] doubled, the sums four times as large. *)
Lemma velocity_scaling_witness :
  let s := (ex_init ex_world2_nofix (ex_state 0 0)).1 in
  let w' := with_procs ex_world2_nofix
              [seq scale_proc 2%:R p | p <- procs ex_world2_nofix] in
  [/\ scalar_reduce w' s = 2%:R ^+ 2 * scalar_reduce ex_world2_nofix s,
      vector_reduce w' s
      = scale6 (vector_reduce ex_world2_nofix s) (2%:R ^+ 2),
      vector (compute_vector ex_class w' s).1
      = scale6 (vector (compute_vector ex_class ex_world2_nofix s).1)
               (2%:R ^+ 2)
    & scalar (compute_scalar ex_count ex_class w' 0 s).1
      = 2%:R ^+ 2
        * scalar (compute_scalar ex_count ex_class ex_world2_nofix 0 s).1].
Proof.
move=> s w'.
have [H1 H2 H3 H4] :=
  @velocity_scaling rat unit ex_count ex_class ex_world2_nofix 0%N s 2%:R.
split; [exact: H1 | exact: H2 | by apply: H3; vm_compute
       | by apply: H4; vm_compute].
Defined.

(** X5 on a configuration: one atom of mass 5 with velocity (1,2,3), no
    angular momentum and a turned frame: the reduced sum is
    5 (1 + 4 + 9) = 70. *)
Lemma zero_angmom_translational_witness :
  let s := (ex_init ex_world_still (ex_state 0 0)).1 in
  scalar_reduce ex_world_still s = 70%:R
  /\ vector_reduce ex_world_still s
     = Vec6 5%:R 20%:R 45%:R 10%:R 15%:R 30%:R.
Proof.
move=> s.
have [|-> ->] := @zero_angmom_translational rat unit ex_world_still s.
  by by_atoms_and.
by rewrite /group_sum !unlock; split; vm_compute.
Defined.

(** X6 on a configuration: moments (13,10,5) and body-frame angular
    momentum (13,20,15) give 169/13 + 400/10 + 225/5 = 98. *)
Lemma rotational_energy_momentum_witness :
  let s := (ex_init ex_world1 (ex_state 0 0)).1 in
  scalar_reduce ex_world1 s = 98%:R.
Proof.
move=> s.
have Hnz : forall r i, (r < nprocs ex_world1)%N ->
    (i < nlocal (rank ex_world1 r))%N ->
    in_group (groupbit s) (rank ex_world1 r) i ->
    [/\ c0 (inertia (rank ex_world1 r) i) != 0,
        c1 (inertia (rank ex_world1 r) i) != 0
      & c2 (inertia (rank ex_world1 r) i) != 0].
  by by_atoms.
rewrite (@rotational_energy_momentum rat unit ex_world1 s Hnz).
by rewrite /group_sum !unlock; vm_compute.
Defined.

(** X7 on a configuration: no atom of [ex_world2] is in group 1. *)
Lemma empty_group_zero_witness :
  let s := ex_state_group1 in
  [/\ has_point_particle ex_world2 (groupbit s) = false,
      scalar_reduce ex_world2 s = 0, vector_reduce ex_world2 s = vec6_0,
      scalar (compute_scalar ex_count ex_class ex_world2 0 s).1 = 0
    & vector (compute_vector ex_class ex_world2 s).1 = vec6_0].
Proof.
move=> s.
have [|H1 H2 H3 H4] :=
  @empty_group_zero rat unit ex_count ex_class ex_world2 0%N s.
  by by_atoms.
have [H5 H6] := H4 (erefl _).
split; [exact: H1 | exact: H2 | exact: H3 | exact: H5 | exact: H6].
Defined.

(** X8 on a configuration: the region bias "flow", entry 0 of the list,
    resolved by [init] and kept through an evaluation. *)
Lemma init_lifecycle_witness :
  let s0 := ex_state_bias "flow" in
  let s1 := (ex_init ex_world2_nofix s0).1 in
  let s := (compute_scalar ex_count ex_class ex_world2 0 s1).1 in
  [/\ tbias s = Some 0%N, tempbias s = 2,
      c_id (compute_at ex_world2_nofix 0) = "flow"%string
    & igroup s = 0 /\ groupbit s = N.one].
Proof.
move=> s0 s1 s.
have Hinit : init ex_count ex_class ex_world2_nofix 0 s0
             = Ok (s1, (ex_init ex_world2_nofix s0).2) by vm_compute.
have Hev : evolves ex_count ex_class s1 s.
  exact: evolves_scalar evolves_refl.
have [[G1 G2 _ _ _] _ H] := init_lifecycle Hinit Hev.
have Hb : (tempbias s0 == 0) = false by [].
rewrite Hb in H; case: H => H1 _ H3 H4 _.
split.
- rewrite H1; vm_compute; reflexivity.
- rewrite H4; vm_compute; reflexivity.
- vm_compute; reflexivity.
- rewrite G1 G2; split; reflexivity.
Defined.

(** X9 on a configuration: the compute "inner" built with three arguments
    is refused as a bias; built with four arguments and the bias "flow",
    the other [init] stops with the error of the [init] of "inner" where
    "flow" is not registered, and returns where it is. *)
Lemma asphere_as_bias_witness :
  let s := ex_state_bias "inner" in
  let sb3 := (ex_built ex_args3).2 in
  let sb4 := (ex_built ex_args4).2 in
  [/\ init ex_count (ex_class_nested sb3) (ex_world_inner ex_args3) 0 s
      = Fatal "Bias compute does not calculate a velocity bias",
      init ex_count (ex_class_nested sb4) (ex_world_inner ex_args4) 0 s
      = Fatal "Could not find compute ID for temperature bias"
    & is_fatal (init ex_count (ex_class_nested sb4) ex_world_inner_flow 0 s)
      = false].
Proof.
move=> s sb3 sb4.
have H3 := @asphere_as_bias rat unit ex_count (ex_class_nested sb3)
             (ex_state 0 0) ex_args3 true (ex_built ex_args3).1 sb3
             "inner" "temp/asphere" (ex_world_inner ex_args3) 0%N s.
have H4 := @asphere_as_bias rat unit ex_count (ex_class_nested sb4)
             (ex_state 0 0) ex_args4 true (ex_built ex_args4).1 sb4
             "inner" "temp/asphere" (ex_world_inner ex_args4) 0%N s.
have H5 := @asphere_as_bias rat unit ex_count (ex_class_nested sb4)
             (ex_state 0 0) ex_args4 true (ex_built ex_args4).1 sb4
             "inner" "temp/asphere" ex_world_inner_flow 0%N s.
split.
- rewrite H3; try (vm_compute; reflexivity).
  move=> msg; vm_compute => H; discriminate H.
- rewrite H4; try (vm_compute; reflexivity).
  move=> msg; vm_compute; case=> <-; reflexivity.
- rewrite H5; try (vm_compute; reflexivity).
  move=> msg; vm_compute => H; discriminate H.
Defined.

(** X10 on a configuration: [ex_world2_nofix] with a fix of 2 degrees of
    freedom appended: [dof] goes from 12 to 10. *)
Lemma extra_fix_lowers_dof_witness :
  let s := ex_state 0 0 in
  let w' := with_fixes ex_world2_nofix
              (rcons (fixes ex_world2_nofix) (fun _ => 2)) in
  exists s1' : state rat,
    [/\ init ex_count ex_class w' 0 s = Ok (s1', w'), fix_dof s1' = 2,
        dof s1' = 10%:R & dof s1' < dof (ex_init ex_world2_nofix s).1].
Proof.
move=> s w'.
have Hinit : init ex_count ex_class ex_world2_nofix 0 s
             = Ok (ex_init ex_world2_nofix s).
  vm_compute; reflexivity.
have H0 : tempbias s = 0 by reflexivity.
have Hc : ex_count w' (igroup s) = ex_count ex_world2_nofix (igroup s).
  vm_compute; reflexivity.
have [s1' [H1 H2 H3 H4]] :=
  @extra_fix_lowers_dof rat unit ex_count ex_class ex_world2_nofix 0%N s
    _ _ (fun _ => 2) H0 Hc Hinit.
exists s1'; split.
- exact: H1.
- rewrite H2; vm_compute; reflexivity.
- rewrite H3; vm_compute; reflexivity.
- apply: H4; vm_compute; reflexivity.
Defined.

(** X11 on a configuration: the dynamic compute without a bias on
    [ex_world2]. *)
Lemma nobias_reevaluation_witness :
  let s := (ex_init ex_world2 (ex_state 1 0)).1 in
  let rs := compute_scalar ex_count ex_class ex_world2 0 s in
  let rv := compute_vector ex_class ex_world2 s in
  [/\ compute_scalar ex_count ex_class ex_world2 0 rs.1 = rs,
      compute_vector ex_class ex_world2 rv.1 = rv
    & compute_vector ex_class ex_world2 rs.1
      = ((compute_scalar ex_count ex_class ex_world2 0 rv.1).1, ex_world2)].
Proof.
move=> s rs rv.
apply: (@nobias_reevaluation rat unit ex_count ex_class ex_world2 0%N s).
vm_compute; reflexivity.
Defined.
